(** * TwitchCounter: word matching, counting and elapsed time

    A shallow embedding of [twitch_word_counter.py] (class
    [TwitchWordCounter]) and of the polling layer of [app.py].

    Python [str] values are modelled as Rocq strings, one [ascii] per code
    point, so the texts covered are those over the code points 0..255
    (ASCII and Latin-1).  Python [int]s are [Z].  The [Counter] holding the
    tallies is a [gmap string Z] read with default 0.  The clock is an
    explicit argument: a [datetime] is the number of microseconds since an
    arbitrary origin. *)

From Stdlib Require Import ZArith NArith Ascii String List Bool Lia.
From Stdlib Require Import Decimal DecimalString DecimalZ Sorted.
From stdpp Require Import base gmap strings list.

Local Open Scope Z_scope.

(** ** Characters *)

Definition code (c : ascii) : N := N_of_ascii c.

Definition between (lo hi : N) (c : ascii) : bool :=
  ((lo <=? code c) && (code c <=? hi))%N.

(** The class [\w] of [re] on [str] patterns: alphanumeric code points
    ([str.isalnum]) and the underscore.  Below 256 the alphanumerics are
    0-9, A-Z, a-z, the letters U+00AA, U+00B5, U+00BA, U+00C0..U+00D6,
    U+00D8..U+00F6, U+00F8..U+00FF and the numerics U+00B2, U+00B3, U+00B9,
    U+00BC..U+00BE. *)
Definition is_alnum (c : ascii) : bool :=
  between 48 57 c || between 65 90 c || between 97 122 c
  || between 170 170 c || between 178 179 c || between 181 181 c
  || between 185 186 c || between 188 190 c
  || between 192 214 c || between 216 246 c || between 248 255 c.

Definition is_word (c : ascii) : bool :=
  is_alnum c || between 95 95 c.

(** [str.lower] on one code point: A-Z, U+00C0..U+00D6 and U+00D8..U+00DE
    move up by 32, everything else below 256 is unchanged. *)
Definition lower_char (c : ascii) : ascii :=
  if between 65 90 c || between 192 214 c || between 216 222 c
  then ascii_of_N (code c + 32)
  else c.

Definition chars (s : string) : list ascii := list_ascii_of_string s.

Fixpoint lower (s : string) : string :=
  match s with
  | EmptyString => EmptyString
  | String c s' => String (lower_char c) (lower s')
  end.

(** ** The pattern [r'\b' + re.escape(word) + r'\b'] *)

(** [re.escape] makes every character of the word match itself, so the
    middle of the pattern is the literal word. *)
Fixpoint starts_with (w t : list ascii) : bool :=
  match w, t with
  | [], _ => true
  | _ :: _, [] => false
  | a :: w', b :: t' => Ascii.eqb a b && starts_with w' t'
  end.

Definition literal_at (w t : list ascii) (i : nat) : bool :=
  starts_with w (drop i t).

Definition is_word_at (t : list ascii) (i : nat) : bool :=
  match t !! i with
  | Some c => is_word c
  | None => false
  end.

Definition is_word_before (t : list ascii) (i : nat) : bool :=
  match i with
  | O => false
  | S j => is_word_at t j
  end.

(** [\b]: the characters on the two sides of position [i] differ in being
    word characters; outside the text counts as a non-word character. *)
Definition at_boundary (t : list ascii) (i : nat) : bool :=
  xorb (is_word_before t i) (is_word_at t i).

(** The whole pattern matches at position [i]. *)
Definition match_at (w t : list ascii) (i : nat) : bool :=
  at_boundary t i && literal_at w t i && at_boundary t (i + length w).

(** [re.findall] scans from the left: the next match is the leftmost one at
    or after the current position, and the scan resumes behind it (one
    character further after an empty match).  [fuel] bounds the number of
    positions tried. *)
Fixpoint search_from (w t : list ascii) (fuel pos : nat) : list nat :=
  match fuel with
  | O => []
  | S fuel' =>
      if match_at w t pos
      then pos :: search_from w t fuel' (pos + Nat.max 1 (length w))
      else search_from w t fuel' (S pos)
  end.

Definition match_positions (w t : list ascii) : list nat :=
  search_from w t (S (length t)) 0.

(** [re.findall(pattern, text)]: the list of matched substrings, each of
    which is the word itself. *)
Definition findall (word text : string) : list string :=
  map (fun _ => word) (match_positions (chars word) (chars text)).

(** ** Whole-word occurrences *)

(** The rule in the words of the specification: the word occurs at
    position [i] and has no alphanumeric character right before or right
    behind it. *)
Definition is_alnum_at (t : list ascii) (i : nat) : bool :=
  match t !! i with
  | Some c => is_alnum c
  | None => false
  end.

Definition is_alnum_before (t : list ascii) (i : nat) : bool :=
  match i with
  | O => false
  | S j => is_alnum_at t j
  end.

Definition alnum_free_occurrence (w t : list ascii) (i : nat) : bool :=
  literal_at w t i
  && negb (is_alnum_before t i)
  && negb (is_alnum_at t (i + length w)).

(** The rule with word characters (alphanumeric or underscore) in the place
    of alphanumeric ones. *)
Definition whole_word_at (w t : list ascii) (i : nat) : bool :=
  literal_at w t i
  && negb (is_word_before t i)
  && negb (is_word_at t (i + length w)).



(** The word is made of word characters. *)
Definition word_chars (w : list ascii) : bool := forallb is_word w.

(** The word is not empty and its first and last characters are word
    characters. *)
Definition word_edges (w : list ascii) : bool :=
  match head w, last w with
  | Some a, Some b => is_word a && is_word b
  | _, _ => false
  end.

(** ** The counter table *)

(** [Counter.__getitem__]: a missing key reads as 0 and is not inserted. *)
Definition counter_get (wc : gmap string Z) (w : string) : Z :=
  default 0 (wc !! w).

(** [word_counts[word] += count]. *)
Definition increment (wc : gmap string Z) (w : string) (delta : Z)
  : gmap string Z :=
  <[w := counter_get wc w + delta]> wc.

(** ** Console output *)

Inductive output :=
| OutCounts (rows : list (string * Z))
| OutTranscribed (text : string)
| OutServiceError (detail : string).

(** [display_counts]: one row per entry of [target_words], in order.  The
    heading line with the running time is not part of the event. *)
Definition display_counts (targets : list string) (wc : gmap string Z)
  : output :=
  OutCounts (map (fun w => (w, counter_get wc w)) targets).

(** ** Matching one transcript *)

Record tally := Tally {
  word_counts : gmap string Z;
  printed : list output
}.

(** One iteration of [for word in self.target_words] on the lowercased
    text. *)
Definition match_word (targets : list string) (text : string)
    (st : tally) (word : string) : tally :=
  let count := Z.of_nat (length (findall word text)) in
  if 0 <? count then
    let wc := increment (word_counts st) word count in
    Tally wc (printed st ++ [display_counts targets wc; OutTranscribed text])
  else st.

(** The loop runs over [loop_words]; [targets] is the whole list, which
    [display_counts] prints. *)
Definition match_words (targets loop_words : list string) (text : string)
    (st : tally) : tally :=
  fold_left (match_word targets text) loop_words st.

(** ** Recognition outcomes and [process_audio] *)

Inductive recognition :=
| Recognized (text : string)
| UnknownValueError
| RequestError (detail : string).

(** The body of [for i, chunk in enumerate(chunks)] for one sub-clip. *)
Definition process_chunk (targets : list string) (st : tally)
    (r : recognition) : tally :=
  match r with
  | Recognized raw => match_words targets targets (lower raw) st
  | UnknownValueError => st
  | RequestError e => Tally (word_counts st) (printed st ++ [OutServiceError e])
  end.

(** One queued audio file: the recognition outcomes of its sub-clips, in
    the order [split_on_silence] returns them. *)
Definition process_unit (targets : list string) (st : tally)
    (clips : list recognition) : tally :=
  fold_left (process_chunk targets) clips st.

(** [process_audio] on the queued files in FIFO order. *)
Definition process_audio (targets : list string) (st : tally)
    (units : list (list recognition)) : tally :=
  fold_left (process_unit targets) units st.

(** Every key of the table satisfies [allowed]. *)
Definition keys_within (allowed : string -> Prop) (st : tally) : Prop :=
  forall k, is_Some (word_counts st !! k) -> allowed k.

(** ** Construction *)

Record TwitchWordCounter := {
  channel_name : string;
  target_words : list string;
  start_time : Z;
  quality : string;
  state : tally
}.

(** [target_words] in [__init__]; [None] and the empty list are both
    falsy. *)
Definition init_target_words (words : option (list string)) : list string :=
  match words with
  | None | Some [] => ["fuck"%string]
  | Some ws => map lower ws
  end.

(** [__init__]; [now] is the reading of [datetime.now()].  The two lines it
    prints are not recorded. *)
Definition init (channel : string) (words : option (list string))
    (q : string) (now : Z) : TwitchWordCounter :=
  {| channel_name := lower channel;
     target_words := init_target_words words;
     start_time := now;
     quality := q;
     state := Tally ∅ [] |}.

Definition with_state (self : TwitchWordCounter) (st : tally)
  : TwitchWordCounter :=
  {| channel_name := channel_name self;
     target_words := target_words self;
     start_time := start_time self;
     quality := quality self;
     state := st |}.

(** The consumer thread working through the queued units. *)
Definition consume (self : TwitchWordCounter)
    (units : list (list recognition)) : TwitchWordCounter :=
  with_state self (process_audio (target_words self) (state self) units).

Definition count_of (self : TwitchWordCounter) (w : string) : Z :=
  counter_get (word_counts (state self)) w.

(** ** [stream_audio]: cutting the byte stream into recordings *)

Definition rate : Z := 16000.
Definition chunk : Z := 1024.
Definition record_seconds : Z := 5.
Definition channels : Z := 1.
(** [audio.get_sample_size(pyaudio.paInt16)]. *)
Definition sample_size : Z := 2.

(** [int(self.rate / self.chunk * self.record_seconds)]: the quotient
    15.625 and the product 78.125 are exact in binary floating point, and
    [int] truncates, so the value is the integer quotient. *)
Definition chunks_per_recording : nat :=
  Z.to_nat (rate * record_seconds / chunk).

(** The temporary WAV file put on the queue. *)
Record wav := {
  nchannels : Z;
  sampwidth : Z;
  framerate : Z;
  wav_frames : list Byte.byte
}.

Definition write_wav (frames : list (list Byte.byte)) : wav :=
  {| nchannels := channels;
     sampwidth := sample_size;
     framerate := rate;
     wav_frames := concat frames |}.

(** The [while self.running] loop with the flag staying set.  [reads] are
    the values returned by the successive [process.stdout.read(self.chunk)]
    calls; an empty value, or the end of the list, is the end of the
    stream.  The result is the pair of the local [frames] and the queue
    when the loop is left. *)
Fixpoint stream_loop (reads : list (list Byte.byte))
    (frames : list (list Byte.byte)) (queue : list wav)
  : list (list Byte.byte) * list wav :=
  match reads with
  | [] => (frames, queue)
  | data :: reads' =>
      match data with
      | [] => (frames, queue)
      | _ :: _ =>
          let frames := frames ++ [data] in
          if (chunks_per_recording <=? length frames)%nat
          then stream_loop reads' [] (queue ++ [write_wav frames])
          else stream_loop reads' frames queue
      end
  end.

(** After the loop only the devices are closed: the queue is what
    [stream_audio] leaves behind. *)
Definition stream_audio (reads : list (list Byte.byte)) : list wav :=
  snd (stream_loop reads [] []).

(** The reads that deliver data: those before the first empty one. *)
Fixpoint until_eof (reads : list (list Byte.byte)) : list (list Byte.byte) :=
  match reads with
  | [] => []
  | [] :: _ => []
  | data :: reads' => data :: until_eof reads'
  end.

(** ** [get_elapsed_time] *)

Record running_time := {
  hours : Z;
  minutes : Z;
  seconds : Z
}.

(** [timedelta.seconds] of a normalised [timedelta]: the whole seconds
    left after the (possibly negative) whole days are taken out. *)
Definition timedelta_seconds (microseconds : Z) : Z :=
  (microseconds / 1000000) mod 86400.

Definition get_elapsed_time (start now : Z) : running_time :=
  let elapsed := timedelta_seconds (now - start) in
  let remainder := elapsed mod 3600 in
  {| hours := elapsed / 3600;
     minutes := remainder / 60;
     seconds := remainder mod 60 |}.

(** ** [app.py]: the published globals *)

Record app := {
  TWITCH_CHANNEL : string;
  counter : TwitchWordCounter;
  g_word_counts : gmap string Z;
  g_running_time : running_time
}.

Definition app_init (channel : string) (words : list string) (now : Z)
  : app :=
  {| TWITCH_CHANNEL := channel;
     counter := init channel (Some words) "audio_only" now;
     g_word_counts := ∅;
     g_running_time := {| hours := 0; minutes := 0; seconds := 0 |} |}.

(** One iteration of the loop of [update_counts], at clock reading
    [now]. *)
Definition update_counts (now : Z) (a : app) : app :=
  {| TWITCH_CHANNEL := TWITCH_CHANNEL a;
     counter := counter a;
     g_word_counts :=
       fold_left (fun m w => <[w := count_of (counter a) w]> m)
                 (target_words (counter a)) (g_word_counts a);
     g_running_time := get_elapsed_time (start_time (counter a)) now |}.

(** The consumer thread of the counter handling one queued unit. *)
Definition app_consume (clips : list recognition) (a : app) : app :=
  {| TWITCH_CHANNEL := TWITCH_CHANNEL a;
     counter := consume (counter a) [clips];
     g_word_counts := g_word_counts a;
     g_running_time := g_running_time a |}.

(** The body of the response of [/api/counts]. *)
Record response := {
  r_channel : string;
  r_counts : gmap string Z;
  r_running_time : running_time
}.

Definition get_counts (a : app) : response :=
  {| r_channel := TWITCH_CHANNEL a;
     r_counts := g_word_counts a;
     r_running_time := g_running_time a |}.

(** What the other threads do between two requests. *)
Inductive activity :=
| Consume (clips : list recognition)
| Refresh (now : Z).

Definition act (a : app) (e : activity) : app :=
  match e with
  | Consume clips => app_consume clips a
  | Refresh now => update_counts now a
  end.

Definition is_refresh (e : activity) : bool :=
  match e with
  | Refresh _ => true
  | Consume _ => false
  end.

(** A session: construct, then process the queued units. *)
Definition run_session (words : option (list string))
    (units : list (list recognition)) : TwitchWordCounter :=
  consume (init "channel" words "audio_only" 0) units.

(** The published counts agree with the counter on every target word. *)
Definition current (a : app) : Prop :=
  forall w, w ∈ target_words (counter a) ->
            g_word_counts a !! w = Some (count_of (counter a) w).

(** ** Matches of a whole run *)

(** The number [count] that [process_audio] computes for a word on one
    sub-clip, and its sums over a unit and over the queue. *)
Definition clip_matches (w : string) (r : recognition) : Z :=
  match r with
  | Recognized raw => Z.of_nat (length (findall w (lower raw)))
  | UnknownValueError | RequestError _ => 0
  end.

Definition unit_matches (w : string) (clips : list recognition) : Z :=
  fold_right (fun r acc => clip_matches w r + acc) 0 clips.

Definition total_matches (w : string) (units : list (list recognition)) : Z :=
  fold_right (fun u acc => unit_matches w u + acc) 0 units.

(** A sub-clip on which [process_audio] prints nothing: no recognisable
    speech, or a transcript in which no target word is found. *)
Definition quiet (targets : list string) (r : recognition) : bool :=
  match r with
  | Recognized raw =>
      forallb (fun w => (length (findall w (lower raw)) =? 0)%nat) targets
  | UnknownValueError => true
  | RequestError _ => false
  end.

(** ** Choosing the stream in [stream_audio] *)

(** [streamlink.streams] returns a dictionary from quality names to
    streams; it is kept as the list of its items in dictionary order, a
    stream being its URL. *)
Fixpoint dict_get (key : string) (items : list (string * string))
  : option string :=
  match items with
  | [] => None
  | (k, v) :: items' => if String.eqb k key then Some v else dict_get key items'
  end.

(** The stream handed to ffmpeg; [None] is the [sys.exit(1)] taken when
    there are no streams. *)
Definition select_stream (quality : string) (streams : list (string * string))
  : option string :=
  match streams with
  | [] => None
  | (_, first) :: _ =>
      match dict_get quality streams with
      | Some stream => Some stream
      | None => Some first
      end
  end.

(** ** [save_stats] *)

(** The record written to the JSON file; the two times are kept as clock
    readings rather than as their ISO texts. *)
Record stats := {
  s_channel : string;
  s_target_words : gmap string Z;
  s_start_time : Z;
  s_end_time : Z
}.

Definition save_stats (self : TwitchWordCounter) (now : Z) : stats :=
  {| s_channel := channel_name self;
     s_target_words :=
       fold_left (fun m w => <[w := count_of self w]> m)
                 (target_words self) ∅;
     s_start_time := start_time self;
     s_end_time := now |}.

(** ** The running time in the heading of [display_counts] *)

(** [str] of an [int]. *)
Definition str (n : Z) : string := NilEmpty.string_of_int (Z.to_int n).

(** The format [:02]: zero padding to two characters. *)
Definition format_02 (n : Z) : string :=
  let text := str n in
  if (String.length text <? 2)%nat then String "0" text else text.

(** [f"{hours:02}:{minutes:02}:{seconds:02}"]. *)
Definition running_time_text (e : running_time) : string :=
  (format_02 (hours e) ++ ":" ++ format_02 (minutes e) ++ ":"
   ++ format_02 (seconds e))%string.

Definition digit (d : Z) : ascii := ascii_of_N (48 + Z.to_N d).

(** ** The configuration of [app.py] *)

(** [str.split] with a one-character separator. *)
Fixpoint split (sep : ascii) (s : string) : list string :=
  match s with
  | EmptyString => [EmptyString]
  | String c s' =>
      if Ascii.eqb c sep then EmptyString :: split sep s'
      else
        match split sep s' with
        | piece :: pieces => String c piece :: pieces
        | [] => [String c EmptyString]
        end
  end.

(** [str.join]. *)
Fixpoint join (sep : string) (pieces : list string) : string :=
  match pieces with
  | [] => EmptyString
  | [piece] => piece
  | piece :: pieces' => (piece ++ sep ++ join sep pieces')%string
  end.

(** [os.environ.get('TARGET_WORDS', 'fuck').split(',')]. *)
Definition TARGET_WORDS (env : option string) : list string :=
  split "," (default "fuck"%string env).

(** The module-level set-up of [app.py] from the two environment
    variables. *)
Definition app_from_env (env_channel env_words : option string) (now : Z)
  : app :=
  app_init (default "asmongold"%string env_channel) (TARGET_WORDS env_words)
           now.

(** The number of separators in a text. *)
Fixpoint count_char (sep : ascii) (s : string) : nat :=
  match s with
  | EmptyString => 0
  | String c s' => (if Ascii.eqb c sep then 1 else 0) + count_char sep s'
  end.

(** ** What the console shows *)

(** The details of the service failures printed, in order. *)
Definition error_details (out : list output) : list string :=
  flat_map (fun o => match o with
                     | OutServiceError detail => [detail]
                     | OutCounts _ | OutTranscribed _ => []
                     end) out.

(** The details of the sub-clips for which the service failed, in order. *)
Definition failed_details (clips : list recognition) : list string :=
  flat_map (fun r => match r with
                     | RequestError detail => [detail]
                     | Recognized _ | UnknownValueError => []
                     end) clips.

(** [f"{audio_file}_chunk_{i}.wav"]. *)
Definition chunk_filename (audio_file : string) (i : nat) : string :=
  (audio_file ++ "_chunk_" ++ str (Z.of_nat i) ++ ".wav")%string.

(** * Properties *)

(** ** Scenario 1 *)

(** C1, as stated, fails: after the transcripts "that is fucked up" and
    "I love this fucking game" the count recorded for "fuck" is not 2. *)
Lemma scenario1_count_is_not_2 :
  count_of
    (run_session (Some ["fuck"%string])
       [[Recognized "that is fucked up"];
        [Recognized "I love this fucking game"]])
    "fuck" <> 2.
Proof. vm_compute. discriminate. Qed.

(** C1, amended: in that session the count recorded for "fuck" is 0 and the
    table has no entry for it, since "fucked" and "fucking" are longer
    words and the pattern asks for a boundary right behind "fuck". *)
Theorem scenario1_count_is_0 :
  let session :=
    run_session (Some ["fuck"%string])
      [[Recognized "that is fucked up"];
       [Recognized "I love this fucking game"]] in
  count_of session "fuck" = 0 /\
  word_counts (state session) !! "fuck"%string = None /\
  findall "fuck" (lower "that is fucked up") = [] /\
  findall "fuck" (lower "I love this fucking game") = [].
Proof. vm_compute. repeat split; reflexivity. Qed.

(** ** Elapsed time *)

Lemma timedelta_seconds_range (us : Z) : 0 <= timedelta_seconds us < 86400.
Proof. unfold timedelta_seconds. apply Z.mod_pos_bound. lia. Qed.

Lemma timedelta_seconds_whole_day (us d : Z) :
  timedelta_seconds (us + d * 86400000000) = timedelta_seconds us.
Proof.
  unfold timedelta_seconds.
  replace (us + d * 86400000000) with (us + (d * 86400) * 1000000) by lia.
  rewrite Z.div_add by lia.
  rewrite Z.mod_add by lia.
  reflexivity.
Qed.

(** C5: 3725 seconds after the start the reading is 1 h 2 min 5 s, and the
    same reading comes back after any further number of whole days; every
    reading has hours in 0..23 and minutes and seconds in 0..59, and is
    the division of the seconds of the elapsed time that remain once whole
    days are removed. *)
Theorem elapsed_decomposes_sub_day_remainder :
  (forall T0 : Z,
      get_elapsed_time T0 (T0 + 3725 * 1000000)
      = {| hours := 1; minutes := 2; seconds := 5 |}) /\
  (forall T0 days : Z,
      get_elapsed_time T0 (T0 + 3725 * 1000000 + days * 86400000000)
      = {| hours := 1; minutes := 2; seconds := 5 |}) /\
  (forall start now : Z,
      let e := get_elapsed_time start now in
      0 <= hours e <= 23 /\ 0 <= minutes e <= 59 /\ 0 <= seconds e <= 59 /\
      hours e * 3600 + minutes e * 60 + seconds e
      = ((now - start) / 1000000) mod 86400).
Proof.
  split; [| split].
  - intros T0. unfold get_elapsed_time.
    replace (T0 + 3725 * 1000000 - T0) with 3725000000 by lia.
    reflexivity.
  - intros T0 days. unfold get_elapsed_time.
    replace (T0 + 3725 * 1000000 + days * 86400000000 - T0)
      with (3725000000 + days * 86400000000) by lia.
    rewrite timedelta_seconds_whole_day. reflexivity.
  - intros start now. cbn zeta. unfold get_elapsed_time. cbn [hours minutes seconds].
    pose proof (timedelta_seconds_range (now - start)) as Hr.
    fold (timedelta_seconds (now - start)).
    set (s := timedelta_seconds (now - start)) in *.
    pose proof (Z.div_mod s 3600 ltac:(lia)) as H1.
    pose proof (Z.mod_pos_bound s 3600 ltac:(lia)) as H2.
    pose proof (Z.div_mod (s mod 3600) 60 ltac:(lia)) as H3.
    pose proof (Z.mod_pos_bound (s mod 3600) 60 ltac:(lia)) as H4.
    assert (0 <= s / 3600) by (apply Z.div_pos; lia).
    assert (s / 3600 < 24) by (apply Z.div_lt_upper_bound; lia).
    assert (0 <= (s mod 3600) / 60) by (apply Z.div_pos; lia).
    assert ((s mod 3600) / 60 < 60) by (apply Z.div_lt_upper_bound; lia).
    repeat split; lia.
Qed.

(** ** Default target words *)

Lemma init_target_words_nonempty (words : option (list string)) :
  init_target_words words <> [].
Proof. destruct words as [[|w ws]|]; discriminate. Qed.

(** C10: a missing or empty word list is replaced by the default
    ["fuck"], so no counter has an empty list of target words. *)
Theorem empty_target_words_default :
  init_target_words (Some []) = ["fuck"%string] /\
  init_target_words None = ["fuck"%string] /\
  (forall channel q now,
      target_words (init channel (Some []) q now) = ["fuck"%string]) /\
  (forall channel words q now,
      target_words (init channel words q now) <> []).
Proof.
  repeat split; intros; cbn [init target_words];
    apply init_target_words_nonempty.
Qed.

(** ** The segmenter at the end of the stream *)

Lemma chunks_per_recording_78 : chunks_per_recording = 78%nat.
Proof. reflexivity. Qed.

Lemma until_eof_nonempty (reads : list (list Byte.byte)) :
  Forall (fun data => data <> []) (until_eof reads).
Proof.
  induction reads as [|data reads IH]; [constructor|].
  destruct data as [|b data]; cbn [until_eof]; [constructor|].
  constructor; [discriminate | exact IH].
Qed.

(** The loop cuts the reads that deliver data into consecutive groups of
    [chunks_per_recording] reads, queues one file per group and is left
    holding the reads behind the last complete group. *)
Lemma stream_loop_groups (reads : list (list Byte.byte)) :
  forall (frames : list (list Byte.byte)) (queue : list wav),
    (length frames < chunks_per_recording)%nat ->
    let out := stream_loop reads frames queue in
    exists groups : list (list (list Byte.byte)),
      Forall (fun g => length g = chunks_per_recording) groups
      /\ snd out = queue ++ map write_wav groups
      /\ frames ++ until_eof reads = concat groups ++ fst out
      /\ (length (fst out) < chunks_per_recording)%nat.
Proof.
  pose proof chunks_per_recording_78 as Hc.
  induction reads as [|data reads IH]; intros frames queue Hlen.
  - exists []. cbn [stream_loop until_eof fst snd map concat].
    rewrite !app_nil_r. repeat split; [constructor | exact Hlen].
  - destruct data as [|b data].
    + exists []. cbn [stream_loop until_eof fst snd map concat].
      rewrite !app_nil_r. repeat split; [constructor | exact Hlen].
    + cbn [stream_loop until_eof].
      destruct (Nat.leb_spec chunks_per_recording
                  (length (frames ++ [b :: data]))) as [Hfull|Hpart].
      * assert (Hexact : length (frames ++ [b :: data]) = chunks_per_recording)
          by (rewrite length_app in *; cbn [length] in *; lia).
        destruct (IH [] (queue ++ [write_wav (frames ++ [b :: data])]))
          as (groups & Hgroups & Hqueue & Hreads & Hlt);
          [cbn [length]; lia|].
        exists ((frames ++ [b :: data]) :: groups).
        repeat split.
        -- constructor; assumption.
        -- rewrite Hqueue, <- app_assoc. reflexivity.
        -- rewrite app_nil_l in Hreads. cbn [concat].
           rewrite Hreads, <- !app_assoc. reflexivity.
        -- exact Hlt.
      * destruct (IH (frames ++ [b :: data]) queue Hpart)
          as (groups & Hgroups & Hqueue & Hreads & Hlt).
        exists groups. repeat split; try assumption.
        rewrite <- Hreads, <- app_assoc. reflexivity.
Qed.

Lemma length_concat_groups (c : nat) (groups : list (list (list Byte.byte))) :
  Forall (fun g => length g = c) groups ->
  length (concat groups) = (c * length groups)%nat.
Proof.
  induction 1 as [|g groups Hg _ IH]; [cbn; lia|].
  cbn [concat length]. rewrite length_app, IH, Hg. lia.
Qed.

Lemma bytes_of_groups (groups : list (list (list Byte.byte))) :
  concat (map wav_frames (map write_wav groups)) = concat (concat groups).
Proof.
  induction groups as [|g groups IH]; [reflexivity|].
  cbn [map concat write_wav wav_frames]. rewrite IH, concat_app. reflexivity.
Qed.

(** C3, as stated, fails: a stream that delivers one read of three bytes
    and then the zero-length read leaves nothing on the queue, so the three
    bytes are lost. *)
Lemma partial_frames_not_flushed :
  let reads := [[Byte.x01; Byte.x02; Byte.x03]; []] in
  stream_audio reads = [] /\
  concat (map wav_frames (stream_audio reads)) <> concat (until_eof reads).
Proof. split; [reflexivity | discriminate]. Qed.

(** C3, amended: when the stream ends the loop is left at once.  The
    reads that delivered data, none of them empty, fall into consecutive
    groups of exactly 78 reads followed by fewer than 78 further reads.
    The queue holds exactly one recording for every group, in order, made
    of the bytes of the reads of that group; the further reads stay in
    the local list and are not put on the queue.  So the queue has as many
    recordings as the number of reads divided by 78, the rest of that
    division is the number of reads dropped, and queue and dropped reads
    together are the bytes read. *)
Theorem end_of_stream_keeps_full_recordings_only
    (reads : list (list Byte.byte)) :
  let frames := fst (stream_loop reads [] []) in
  let queue := stream_audio reads in
  exists groups : list (list (list Byte.byte)),
    until_eof reads = concat groups ++ frames /\
    Forall (fun data => data <> []) (until_eof reads) /\
    Forall (fun g => length g = 78%nat) groups /\
    (length frames < 78)%nat /\
    queue = map write_wav groups /\
    length queue = (length (until_eof reads) / 78)%nat /\
    length frames = (length (until_eof reads) mod 78)%nat /\
    concat (map wav_frames queue) ++ concat frames = concat (until_eof reads).
Proof.
  cbn zeta. unfold stream_audio.
  pose proof chunks_per_recording_78 as Hc.
  destruct (stream_loop_groups reads [] [])
    as (groups & Hgroups & Hqueue & Hreads & Hlt); [cbn [length]; lia|].
  rewrite !app_nil_l in *. rewrite Hc in Hgroups, Hlt.
  set (out := stream_loop reads [] []) in *.
  assert (Hn : length (until_eof reads)
               = (78 * length groups + length (fst out))%nat).
  { rewrite Hreads, length_app, (length_concat_groups 78) by exact Hgroups.
    reflexivity. }
  exists groups. repeat split.
  - exact Hreads.
  - apply until_eof_nonempty.
  - exact Hgroups.
  - exact Hlt.
  - exact Hqueue.
  - rewrite Hqueue, length_map.
    apply Nat.div_unique with (r := length (fst out)); lia.
  - apply Nat.mod_unique with (q := length groups); lia.
  - rewrite Hqueue, bytes_of_groups, Hreads, concat_app. reflexivity.
Qed.

(** ** The counter table accepts any word *)

Lemma counter_get_increment_same (wc : gmap string Z) (w : string) (d : Z) :
  counter_get (increment wc w d) w = counter_get wc w + d.
Proof. unfold counter_get at 1, increment. rewrite lookup_insert_eq. reflexivity. Qed.

Lemma lookup_increment_other (wc : gmap string Z) (w k : string) (d : Z) :
  k <> w -> increment wc w d !! k = wc !! k.
Proof. intros Hne. unfold increment. rewrite lookup_insert_ne; congruence. Qed.

Lemma word_counts_match_word (targets : list string) (text : string)
    (st : tally) (w : string) :
  word_counts (match_word targets text st w)
  = if 0 <? Z.of_nat (length (findall w text))
    then increment (word_counts st) w (Z.of_nat (length (findall w text)))
    else word_counts st.
Proof. unfold match_word. destruct (0 <? _); reflexivity. Qed.

Section Keys.
Variable allowed : string -> Prop.

Lemma match_words_keys (targets : list string) (text : string)
    (ws : list string) :
  Forall allowed ws ->
  forall st,
    keys_within allowed st ->
    keys_within allowed (match_words targets ws text st).
Proof.
  unfold match_words.
  induction 1 as [|w ws Hw Hws IH]; intros st Hst; [exact Hst|].
  cbn [fold_left]. apply IH. intros k Hk.
  rewrite word_counts_match_word in Hk.
  destruct (0 <? _); [|auto].
  destruct (decide (k = w)) as [->|Hne]; [assumption|].
  rewrite lookup_increment_other in Hk by assumption. auto.
Qed.

Lemma process_chunk_keys (targets : list string) (r : recognition) :
  Forall allowed targets ->
  forall st,
    keys_within allowed st ->
    keys_within allowed (process_chunk targets st r).
Proof.
  intros Ht st Hst. destruct r as [raw| |e]; cbn [process_chunk].
  - apply match_words_keys; assumption.
  - assumption.
  - exact Hst.
Qed.

Lemma process_unit_keys (targets : list string) (clips : list recognition) :
  Forall allowed targets ->
  forall st,
    keys_within allowed st ->
    keys_within allowed (process_unit targets st clips).
Proof.
  intros Ht. unfold process_unit.
  induction clips as [|r clips IH]; intros st Hst; [exact Hst|].
  cbn [fold_left]. apply IH, process_chunk_keys; assumption.
Qed.

Lemma process_audio_keys (targets : list string)
    (units : list (list recognition)) :
  Forall allowed targets ->
  forall st,
    keys_within allowed st ->
    keys_within allowed (process_audio targets st units).
Proof.
  intros Ht. unfold process_audio.
  induction units as [|u units IH]; intros st Hst; [exact Hst|].
  cbn [fold_left]. apply IH, process_unit_keys; assumption.
Qed.
End Keys.

(** C4, as stated, fails: with target words ["fuck"], incrementing the
    word "shit", which is not a target word, by 1 raises nothing and
    changes the table: the word gets the count 1. *)
Lemma increment_outside_targets_changes_table :
  ~ In "shit"%string (init_target_words (Some ["fuck"%string])) /\
  increment ∅ "shit" 1 !! "shit"%string = Some 1 /\
  counter_get (increment ∅ "shit" 1) "shit" <> counter_get ∅ "shit".
Proof.
  split; [|split].
  - cbn. intros [H|[]]. discriminate H.
  - reflexivity.
  - vm_compute. discriminate.
Qed.

(** C4, amended: the table takes any word.  For a word outside the target
    words and a delta of at least 1 the update adds delta to the count of
    that word, creating its entry, and leaves every other entry as it was.
    Only the loop over the target words keeps other words out: whatever
    units a fresh counter processes, every key of its table is a target
    word. *)
Theorem increment_accepts_any_word
    (targets : list string) (wc : gmap string Z) (w : string) (delta : Z) :
  ~ In w targets ->
  1 <= delta ->
  counter_get (increment wc w delta) w = counter_get wc w + delta /\
  is_Some (increment wc w delta !! w) /\
  (forall k, k <> w -> increment wc w delta !! k = wc !! k) /\
  (forall units k,
      is_Some (word_counts (process_audio targets (Tally ∅ []) units) !! k) ->
      In k targets).
Proof.
  intros _ _. repeat split.
  - apply counter_get_increment_same.
  - unfold increment. rewrite lookup_insert_eq. eauto.
  - intros k Hk. apply lookup_increment_other, Hk.
  - intros units k.
    apply (process_audio_keys (fun k => In k targets)).
    + apply Forall_forall. intros x Hx. apply list_elem_of_In, Hx.
    + intros k' Hk'. cbn [word_counts] in Hk'.
      rewrite lookup_empty in Hk'. destruct Hk' as [? Hk']. discriminate Hk'.
Qed.

Lemma increment_accepts_any_word_witness :
  counter_get (increment ∅ "shit" 1) "shit" = counter_get ∅ "shit" + 1 /\
  is_Some (increment (∅ : gmap string Z) "shit" 1 !! "shit"%string) /\
  (forall k, k <> "shit"%string ->
             increment (∅ : gmap string Z) "shit" 1 !! k
             = (∅ : gmap string Z) !! k) /\
  (forall units k,
      is_Some (word_counts
                 (process_audio ["fuck"%string] (Tally ∅ []) units) !! k) ->
      In k ["fuck"%string]).
Proof.
  apply (increment_accepts_any_word ["fuck"%string] ∅ "shit" 1).
  - cbn. intros [H|[]]. discriminate H.
  - lia.
Defined.

(** ** Counts after matching a transcript *)

Lemma match_words_counts_ext (t1 t2 ws : list string) (text : string) :
  forall st1 st2,
    word_counts st1 = word_counts st2 ->
    word_counts (match_words t1 ws text st1)
    = word_counts (match_words t2 ws text st2).
Proof.
  unfold match_words.
  induction ws as [|w ws IH]; intros st1 st2 Heq; [exact Heq|].
  cbn [fold_left]. apply IH.
  rewrite !word_counts_match_word, Heq. reflexivity.
Qed.

Lemma process_chunk_counts_ext (targets : list string) (r : recognition)
    (st1 st2 : tally) :
  word_counts st1 = word_counts st2 ->
  word_counts (process_chunk targets st1 r)
  = word_counts (process_chunk targets st2 r).
Proof.
  intros Heq. destruct r as [raw| |e]; cbn [process_chunk word_counts].
  - apply match_words_counts_ext, Heq.
  - exact Heq.
  - exact Heq.
Qed.

Lemma process_unit_counts_ext (targets : list string)
    (clips : list recognition) :
  forall st1 st2,
    word_counts st1 = word_counts st2 ->
    word_counts (process_unit targets st1 clips)
    = word_counts (process_unit targets st2 clips).
Proof.
  unfold process_unit.
  induction clips as [|r clips IH]; intros st1 st2 Heq; [exact Heq|].
  cbn [fold_left]. apply IH, process_chunk_counts_ext, Heq.
Qed.

Lemma process_audio_counts_ext (targets : list string)
    (units : list (list recognition)) :
  forall st1 st2,
    word_counts st1 = word_counts st2 ->
    word_counts (process_audio targets st1 units)
    = word_counts (process_audio targets st2 units).
Proof.
  unfold process_audio.
  induction units as [|u units IH]; intros st1 st2 Heq; [exact Heq|].
  cbn [fold_left]. apply IH, process_unit_counts_ext, Heq.
Qed.

(** Nothing printed is ever taken back. *)
Lemma match_words_printed (targets ws : list string) (text : string)
    (x : output) :
  forall st, In x (printed st) -> In x (printed (match_words targets ws text st)).
Proof.
  unfold match_words.
  induction ws as [|w ws IH]; intros st Hin; [exact Hin|].
  cbn [fold_left]. apply IH. unfold match_word.
  destruct (0 <? _); [|exact Hin].
  cbn [printed]. apply in_or_app. left. exact Hin.
Qed.

Lemma process_chunk_printed (targets : list string) (r : recognition)
    (x : output) (st : tally) :
  In x (printed st) -> In x (printed (process_chunk targets st r)).
Proof.
  intros Hin. destruct r as [raw| |e]; cbn [process_chunk printed].
  - apply match_words_printed, Hin.
  - exact Hin.
  - apply in_or_app. left. exact Hin.
Qed.

Lemma process_unit_printed (targets : list string) (clips : list recognition)
    (x : output) :
  forall st, In x (printed st) -> In x (printed (process_unit targets st clips)).
Proof.
  unfold process_unit.
  induction clips as [|r clips IH]; intros st Hin; [exact Hin|].
  cbn [fold_left]. apply IH, process_chunk_printed, Hin.
Qed.

Lemma process_audio_printed (targets : list string)
    (units : list (list recognition)) (x : output) :
  forall st, In x (printed st) -> In x (printed (process_audio targets st units)).
Proof.
  unfold process_audio.
  induction units as [|u units IH]; intros st Hin; [exact Hin|].
  cbn [fold_left]. apply IH, process_unit_printed, Hin.
Qed.

Lemma process_audio_app (targets : list string)
    (us1 us2 : list (list recognition)) (st : tally) :
  process_audio targets st (us1 ++ us2)
  = process_audio targets (process_audio targets st us1) us2.
Proof. unfold process_audio. apply fold_left_app. Qed.

Lemma process_unit_app (targets : list string)
    (cs1 cs2 : list recognition) (st : tally) :
  process_unit targets st (cs1 ++ cs2)
  = process_unit targets (process_unit targets st cs1) cs2.
Proof. unfold process_unit. apply fold_left_app. Qed.

Lemma process_audio_single (targets : list string) (st : tally)
    (clips : list recognition) :
  process_audio targets st [clips] = process_unit targets st clips.
Proof. reflexivity. Qed.

Lemma process_unit_cons (targets : list string) (st : tally)
    (r : recognition) (clips : list recognition) :
  process_unit targets st (r :: clips)
  = process_unit targets (process_chunk targets st r) clips.
Proof. reflexivity. Qed.

(** ** Repeated target words *)

Lemma counter_get_match_words (targets ws : list string) (text w : string) :
  forall st,
    counter_get (word_counts (match_words targets ws text st)) w
    = counter_get (word_counts st) w
      + Z.of_nat (count_occ string_dec ws w)
        * Z.of_nat (length (findall w text)).
Proof.
  unfold match_words.
  induction ws as [|a ws IH]; intros st.
  - cbn [fold_left count_occ]. lia.
  - cbn [fold_left count_occ]. rewrite IH, word_counts_match_word.
    destruct (string_dec a w) as [->|Hne].
    + destruct (Z.ltb_spec 0 (Z.of_nat (length (findall w text)))) as [Hpos|Hzero].
      * rewrite counter_get_increment_same. lia.
      * assert (Z.of_nat (length (findall w text)) = 0) as -> by lia. lia.
    + destruct (0 <? _); [|reflexivity].
      unfold counter_get at 1.
      rewrite lookup_increment_other by congruence. reflexivity.
Qed.

(** C8, as stated, fails: the words "fuck" and "Fuck" give the target list
    ["fuck"; "fuck"], in which the word is present twice, and the transcript
    "fuck", with its single occurrence, raises the count to 2. *)
Lemma repeated_target_word_counts_twice :
  init_target_words (Some ["fuck"%string; "Fuck"%string])
  = ["fuck"%string; "fuck"%string] /\
  ~ NoDup (init_target_words (Some ["fuck"%string; "Fuck"%string])) /\
  count_of
    (run_session (Some ["fuck"%string; "Fuck"%string]) [[Recognized "fuck"]])
    "fuck" = 2.
Proof.
  split; [reflexivity | split; [|vm_compute; reflexivity]].
  intros Hnd. change (NoDup ["fuck"%string; "fuck"%string]) in Hnd.
  apply NoDup_cons_1_1 in Hnd. apply Hnd. left.
Qed.

(** C8, amended: the target words are the configured words lowercased, in
    order and with repetitions kept; matching a transcript adds to the
    count of a word its number of matches once for every entry of the list
    equal to it. *)
Theorem target_words_keep_repetitions
    (first : string) (others : list string) (raw w : string) (st : tally) :
  let targets := init_target_words (Some (first :: others)) in
  targets = map lower (first :: others) /\
  counter_get (word_counts (process_chunk targets st (Recognized raw))) w
  = counter_get (word_counts st) w
    + Z.of_nat (count_occ string_dec targets w)
      * Z.of_nat (length (findall w (lower raw))).
Proof.
  cbn zeta. split; [reflexivity|].
  cbn [process_chunk]. apply counter_get_match_words.
Qed.

(** ** Words without a match of the pattern *)


(** ** The published snapshot *)

Lemma lookup_publish (f : string -> Z) (ws : list string) :
  forall (m : gmap string Z) (k : string),
    fold_left (fun m w => <[w := f w]> m) ws m !! k
    = if decide (k ∈ ws) then Some (f k) else m !! k.
Proof.
  induction ws as [|a ws IH]; intros m k; cbn [fold_left].
  - destruct (decide (k ∈ [])) as [Hin|_]; [|reflexivity].
    apply elem_of_nil in Hin. destruct Hin.
  - rewrite IH.
    destruct (decide (k ∈ ws)) as [Hin|Hout].
    + rewrite decide_True by (apply elem_of_cons; auto). reflexivity.
    + destruct (decide (k = a)) as [->|Hne].
      * rewrite lookup_insert_eq.
        rewrite decide_True by (apply elem_of_cons; auto). reflexivity.
      * rewrite lookup_insert_ne by congruence.
        rewrite decide_False; [reflexivity|].
        intros [?|?]%elem_of_cons; contradiction.
Qed.

Lemma update_counts_current (now : Z) (a : app) : current (update_counts now a).
Proof.
  intros w Hw. cbn [update_counts g_word_counts counter] in *.
  rewrite lookup_publish, decide_True by exact Hw. reflexivity.
Qed.

Lemma update_counts_of_current (now : Z) (a : app) :
  current a -> g_word_counts (update_counts now a) = g_word_counts a.
Proof.
  intros Hcur. cbn [update_counts g_word_counts].
  apply map_eq. intros k. rewrite lookup_publish.
  destruct (decide (k ∈ target_words (counter a))) as [Hin|_]; [|reflexivity].
  symmetry. apply Hcur, Hin.
Qed.

Lemma refreshes_keep_counts (evs : list activity) :
  forallb is_refresh evs = true ->
  forall a, current a -> g_word_counts (fold_left act evs a) = g_word_counts a.
Proof.
  induction evs as [|e evs IH]; intros Hall a Hcur; [reflexivity|].
  cbn [forallb] in Hall. apply andb_prop in Hall as [He Hall].
  destruct e as [clips|now]; [discriminate He|].
  cbn [fold_left act]. rewrite IH.
  - apply update_counts_of_current, Hcur.
  - exact Hall.
  - apply update_counts_current.
Qed.

Lemma consumes_keep_response (evs : list activity) :
  forallb (fun e => negb (is_refresh e)) evs = true ->
  forall a, get_counts (fold_left act evs a) = get_counts a.
Proof.
  induction evs as [|e evs IH]; intros Hall a; [reflexivity|].
  cbn [forallb] in Hall. apply andb_prop in Hall as [He Hall].
  destruct e as [clips|now]; [|discriminate He].
  cbn [fold_left act]. rewrite IH by exact Hall. reflexivity.
Qed.

(** C9, as stated, fails.  With no increment at all, a request made after
    the refresh at second 0 and one made after the refresh at second 1
    differ in the elapsed time.  And when a unit was counted before the
    first request but not yet published, a refresh between the two
    requests changes the counts they return, with no increment in
    between. *)
Lemma requests_differ_without_increment :
  (let a := update_counts 0 (app_init "asmongold" ["fuck"%string] 0) in
   get_counts (fold_left act [Refresh 1000000] a) <> get_counts a) /\
  (let a :=
     app_consume [Recognized "fuck"]
       (update_counts 0 (app_init "asmongold" ["fuck"%string] 0)) in
   r_counts (get_counts a) !! "fuck"%string = Some 0 /\
   r_counts (get_counts (fold_left act [Refresh 0] a)) !! "fuck"%string
   = Some 1).
Proof.
  split.
  - cbn zeta. intros Heq. apply (f_equal r_running_time) in Heq.
    vm_compute in Heq. discriminate Heq.
  - cbn zeta. split; vm_compute; reflexivity.
Qed.

(** C9, amended: a request returns what the refresh loop published last.
    Two requests return equal results when no refresh runs between them,
    whatever is counted meanwhile.  When only refreshes run between them
    and the first request follows a refresh, the counts returned are equal;
    the elapsed time returned is the one computed at the latest refresh, so
    it moves with the clock. *)
Theorem requests_equal_between_refreshes
    (a : app) (evs : list activity) (now : Z) :
  (forallb (fun e => negb (is_refresh e)) evs = true ->
   get_counts (fold_left act evs a) = get_counts a) /\
  (forallb is_refresh evs = true ->
   r_counts (get_counts (fold_left act evs (update_counts now a)))
   = r_counts (get_counts (update_counts now a))) /\
  r_running_time (get_counts (update_counts now a))
  = get_elapsed_time (start_time (counter a)) now.
Proof.
  split; [|split].
  - intros Hall. apply consumes_keep_response, Hall.
  - intros Hall. cbn [get_counts r_counts].
    apply refreshes_keep_counts; [exact Hall | apply update_counts_current].
  - reflexivity.
Qed.

Lemma requests_equal_between_refreshes_witness :
  let a := app_init "asmongold" ["fuck"%string] 0 in
  get_counts
    (fold_left act [Consume [Recognized "fuck"]; Consume [UnknownValueError]] a)
  = get_counts a /\
  r_counts
    (get_counts
       (fold_left act [Refresh 1000000; Refresh 2000000] (update_counts 0 a)))
  = r_counts (get_counts (update_counts 0 a)).
Proof.
  cbn zeta. split.
  - apply (requests_equal_between_refreshes
             (app_init "asmongold" ["fuck"%string] 0)
             [Consume [Recognized "fuck"]; Consume [UnknownValueError]] 0).
    reflexivity.
  - apply (requests_equal_between_refreshes
             (app_init "asmongold" ["fuck"%string] 0)
             [Refresh 1000000; Refresh 2000000] 0).
    reflexivity.
Defined.

(** ** What the pattern counts *)

Lemma starts_with_lookup (w : list ascii) :
  forall (t : list ascii) (k : nat) (c : ascii),
    starts_with w t = true -> w !! k = Some c -> t !! k = Some c.
Proof.
  induction w as [|a w IH]; intros t k c Hsw Hk; [discriminate Hk|].
  destruct t as [|b t]; [discriminate Hsw|].
  cbn [starts_with] in Hsw. apply andb_prop in Hsw as [Hab Hsw].
  apply Ascii.eqb_eq in Hab. subst b.
  destruct k as [|k]; [exact Hk|].
  cbn in Hk |- *. eapply IH; eassumption.
Qed.

Lemma starts_with_length (w : list ascii) :
  forall t : list ascii,
    starts_with w t = true -> (length w <= length t)%nat.
Proof.
  induction w as [|a w IH]; intros t Hsw; cbn [length]; [lia|].
  destruct t as [|b t]; [discriminate Hsw|].
  cbn [starts_with] in Hsw. apply andb_prop in Hsw as [_ Hsw].
  apply IH in Hsw. cbn [length]. lia.
Qed.

Lemma literal_at_lookup (w t : list ascii) (i k : nat) (c : ascii) :
  literal_at w t i = true -> w !! k = Some c -> t !! (i + k)%nat = Some c.
Proof.
  unfold literal_at. intros Hsw Hk.
  rewrite <- lookup_drop. eapply starts_with_lookup; eassumption.
Qed.

Lemma literal_at_fits (w t : list ascii) (i : nat) :
  w <> [] -> literal_at w t i = true -> (i + length w <= length t)%nat.
Proof.
  unfold literal_at. intros Hne Hsw.
  apply starts_with_length in Hsw. rewrite length_drop in Hsw.
  destruct w as [|a w]; [contradiction|]. cbn [length] in *. lia.
Qed.

Lemma is_word_at_beyond (t : list ascii) (i : nat) :
  (length t <= i)%nat -> is_word_at t i = false.
Proof.
  intros Hle. unfold is_word_at. rewrite lookup_ge_None_2 by exact Hle.
  reflexivity.
Qed.

Lemma match_at_beyond (w t : list ascii) (i : nat) :
  (length t < i)%nat -> match_at w t i = false.
Proof.
  intros Hlt. unfold match_at, at_boundary.
  destruct i as [|j]; [lia|]. cbn [is_word_before].
  rewrite !is_word_at_beyond by lia. reflexivity.
Qed.

Lemma is_word_at_literal (w t : list ascii) (i k : nat) (c : ascii) :
  literal_at w t i = true -> w !! k = Some c -> is_word c = true ->
  is_word_at t (i + k) = true.
Proof.
  intros Hlit Hk Hc. unfold is_word_at.
  rewrite (literal_at_lookup w t i k c Hlit Hk). exact Hc.
Qed.

Lemma word_chars_lookup (w : list ascii) (k : nat) (c : ascii) :
  word_chars w = true -> w !! k = Some c -> is_word c = true.
Proof.
  unfold word_chars. intros Hw Hk.
  rewrite forallb_forall in Hw. apply Hw.
  apply list_elem_of_In. eapply list_elem_of_lookup_2, Hk.
Qed.

Lemma word_edges_nonempty (w : list ascii) :
  word_edges w = true -> (0 < length w)%nat.
Proof. destruct w; [discriminate | cbn [length]; lia]. Qed.

Lemma word_chars_edges (w : list ascii) :
  w <> [] -> word_chars w = true -> word_edges w = true.
Proof.
  intros Hne Hw. unfold word_edges.
  destruct (head w) as [a|] eqn:Ha; [|destruct w; [contradiction|discriminate Ha]].
  destruct (last w) as [b|] eqn:Hb; [|apply last_None in Hb; contradiction].
  rewrite head_lookup in Ha. rewrite last_lookup in Hb.
  rewrite (word_chars_lookup w _ a Hw Ha), (word_chars_lookup w _ b Hw Hb).
  reflexivity.
Qed.

(** Inside an occurrence of a word made of word characters there is no
    boundary, hence no further match. *)
Lemma no_match_inside (w t : list ascii) (i j : nat) :
  word_chars w = true -> literal_at w t i = true ->
  (i < j < i + length w)%nat -> match_at w t j = false.
Proof.
  intros Hw Hlit Hj. unfold match_at, at_boundary.
  destruct j as [|j']; [lia|]. cbn [is_word_before].
  destruct (lookup_lt_is_Some_2 w (j' - i)) as [c1 Hc1]; [lia|].
  destruct (lookup_lt_is_Some_2 w (S j' - i)) as [c2 Hc2]; [lia|].
  replace j' with (i + (j' - i))%nat at 1 by lia.
  replace (S j') with (i + (S j' - i))%nat at 1 by lia.
  rewrite (is_word_at_literal w t i _ c1 Hlit Hc1)
    by (eapply word_chars_lookup; eassumption).
  rewrite (is_word_at_literal w t i _ c2 Hlit Hc2)
    by (eapply word_chars_lookup; eassumption).
  reflexivity.
Qed.

(** For a word with word characters at both ends the two boundaries of the
    pattern say that the neighbours are not word characters. *)
Lemma match_at_whole_word (w t : list ascii) (i : nat) :
  word_edges w = true -> match_at w t i = whole_word_at w t i.
Proof.
  intros Hedge. pose proof (word_edges_nonempty w Hedge) as Hlen.
  unfold match_at, whole_word_at, at_boundary.
  destruct (literal_at w t i) eqn:Hlit; [|rewrite andb_false_r; reflexivity].
  unfold word_edges in Hedge.
  destruct (head w) as [a|] eqn:Ha; [|discriminate Hedge].
  destruct (last w) as [b|] eqn:Hb; [|discriminate Hedge].
  apply andb_prop in Hedge as [Hwa Hwb].
  rewrite head_lookup in Ha. rewrite last_lookup in Hb.
  assert (Hfirst : is_word_at t i = true).
  { replace i with (i + 0)%nat by lia.
    exact (is_word_at_literal w t i 0 a Hlit Ha Hwa). }
  assert (Hlast : is_word_before t (i + length w) = true).
  { replace (i + length w)%nat with (S (i + pred (length w))) by lia.
    cbn [is_word_before].
    exact (is_word_at_literal w t i _ b Hlit Hb Hwb). }
  rewrite Hfirst, Hlast.
  destruct (is_word_before t i), (is_word_at t (i + length w)); reflexivity.
Qed.

Lemma filter_seq_none (f : nat -> bool) (n : nat) :
  forall a : nat,
    (forall j, (a <= j < a + n)%nat -> f j = false) ->
    List.filter f (seq a n) = [].
Proof.
  induction n as [|n IH]; intros a Hf; [reflexivity|].
  cbn [seq List.filter]. rewrite Hf by lia. apply IH.
  intros j Hj. apply Hf. lia.
Qed.

(** With enough fuel the scan for a word made of word characters returns
    every position where the pattern matches. *)
Lemma search_from_filter (w t : list ascii) :
  w <> [] -> word_chars w = true ->
  forall fuel pos : nat,
    (S (length t) <= fuel + pos)%nat ->
    search_from w t fuel pos
    = List.filter (match_at w t) (seq pos (S (length t) - pos)).
Proof.
  intros Hne Hw.
  assert (Hlen : (0 < length w)%nat)
    by (destruct w; [contradiction | cbn [length]; lia]).
  induction fuel as [|fuel IH]; intros pos Hfuel.
  - replace (S (length t) - pos)%nat with 0%nat by lia. reflexivity.
  - cbn [search_from].
    destruct (Nat.le_gt_cases pos (length t)) as [Hin|Hout].
    + replace (S (length t) - pos)%nat with (S (length t - pos)) by lia.
      cbn [seq List.filter].
      destruct (match_at w t pos) eqn:Hm.
      * f_equal.
        assert (Hlit : literal_at w t pos = true).
        { unfold match_at in Hm. apply andb_prop in Hm as [Hm _].
          apply andb_prop in Hm as [_ Hm]. exact Hm. }
        pose proof (literal_at_fits w t pos Hne Hlit) as Hfit.
        rewrite Nat.max_r by lia. rewrite IH by lia.
        replace (length t - pos)%nat
          with ((length w - 1) + (S (length t) - (pos + length w)))%nat by lia.
        rewrite seq_app, List.filter_app.
        rewrite (filter_seq_none (match_at w t) (length w - 1) (S pos)).
        -- replace (S pos + (length w - 1))%nat with (pos + length w)%nat by lia.
           reflexivity.
        -- intros j Hj. apply (no_match_inside w t pos); [assumption..|lia].
      * rewrite IH by lia.
        replace (S (length t) - S pos)%nat with (length t - pos)%nat by lia.
        reflexivity.
    + rewrite match_at_beyond by lia. rewrite IH by lia.
      replace (S (length t) - S pos)%nat with 0%nat by lia.
      replace (S (length t) - pos)%nat with 0%nat by lia.
      reflexivity.
Qed.

(** For any word: the scan returns nothing exactly when the pattern matches
    at no position. *)
Lemma search_from_nil_inv (w t : list ascii) :
  forall fuel pos : nat,
    (S (length t) <= fuel + pos)%nat ->
    search_from w t fuel pos = [] ->
    forall i, (pos <= i)%nat -> match_at w t i = false.
Proof.
  induction fuel as [|fuel IH]; intros pos Hfuel Hnil i Hi.
  - apply match_at_beyond. lia.
  - cbn [search_from] in Hnil.
    destruct (match_at w t pos) eqn:Hm; [discriminate Hnil|].
    destruct (Nat.eq_dec i pos) as [->|Hne]; [exact Hm|].
    apply (IH (S pos)); [lia | exact Hnil | lia].
Qed.

Lemma search_from_no_match (w t : list ascii) :
  (forall i, match_at w t i = false) ->
  forall fuel pos, search_from w t fuel pos = [].
Proof.
  intros Hno. induction fuel as [|fuel IH]; intros pos; [reflexivity|].
  cbn [search_from]. rewrite Hno. apply IH.
Qed.

Lemma findall_nil_iff (word text : string) :
  findall word text = [] <->
  forall i, match_at (chars word) (chars text) i = false.
Proof.
  unfold findall, match_positions. split.
  - intros Hnil i.
    apply (search_from_nil_inv (chars word) (chars text)
             (S (length (chars text))) 0); [lia | | lia].
    destruct (search_from _ _ _ _); [reflexivity | discriminate Hnil].
  - intros Hno. rewrite search_from_no_match by exact Hno. reflexivity.
Qed.

Lemma length_findall (word text : string) :
  length (findall word text)
  = length (match_positions (chars word) (chars text)).
Proof. unfold findall. apply length_map. Qed.

(** C2, as stated, fails.  In "fuck_you" the word "fuck" has no
    alphanumeric neighbour, yet it is not counted, the underscore being a
    word character for the pattern.  In "i love c++ so much" the word
    "c++" has no alphanumeric neighbour either and is not counted: behind
    its last character, which is not a word character, the pattern asks
    for a word character. *)
Lemma alnum_free_occurrence_not_counted :
  (alnum_free_occurrence (chars "fuck") (chars "fuck_you") 0 = true /\
   findall "fuck" "fuck_you" = []) /\
  (alnum_free_occurrence (chars "c++") (chars "i love c++ so much") 7 = true /\
   findall "c++" "i love c++ so much" = []).
Proof. repeat split; vm_compute; reflexivity. Qed.

(** C2, amended: take a target word that is not empty and whose first and
    last characters are word characters (letters, digits, underscore).
    The pattern matches at a position exactly when the word occurs there
    with no word character right before and right behind it, and the count
    is 0 exactly when there is no such position; so the word inside a
    longer word, as "fuck" in "fucker", is not counted.  When the word is
    made of word characters only, the count is the number of such
    positions. *)
Theorem matcher_counts_whole_word_occurrences (word text : string) :
  word_edges (chars word) = true ->
  (forall i,
      match_at (chars word) (chars text) i
      = whole_word_at (chars word) (chars text) i) /\
  (findall word text = [] <->
   forall i, whole_word_at (chars word) (chars text) i = false) /\
  (word_chars (chars word) = true ->
   length (findall word text)
   = length (List.filter (whole_word_at (chars word) (chars text))
               (seq 0 (S (length (chars text)))))).
Proof.
  intros Hedge.
  assert (Hsame : forall i,
             match_at (chars word) (chars text) i
             = whole_word_at (chars word) (chars text) i)
    by (intros i; apply match_at_whole_word, Hedge).
  split; [exact Hsame | split].
  - rewrite findall_nil_iff.
    split; intros Hno i; [rewrite <- Hsame | rewrite Hsame]; apply Hno.
  - intros Hw. rewrite length_findall. unfold match_positions.
    rewrite search_from_filter.
    + rewrite Nat.sub_0_r. f_equal. apply List.filter_ext, Hsame.
    + apply word_edges_nonempty in Hedge. intros Hnil.
      rewrite Hnil in Hedge. cbn [length] in Hedge. lia.
    + exact Hw.
    + lia.
Qed.

Lemma matcher_counts_whole_word_occurrences_witness :
  length (findall "fuck" "fucker, what the fuck")
  = length (List.filter
              (whole_word_at (chars "fuck") (chars "fucker, what the fuck"))
              (seq 0 (S (length (chars "fucker, what the fuck"))))) /\
  length (findall "fuck" "fucker, what the fuck") = 1%nat.
Proof.
  split.
  - apply (matcher_counts_whole_word_occurrences "fuck" "fucker, what the fuck").
    + reflexivity.
    + reflexivity.
  - vm_compute. reflexivity.
Defined.

(** ** Words without a whole-word occurrence *)





(** * Further properties *)

(** ** Lower case *)

Lemma lower_char_idempotent (c : ascii) :
  lower_char (lower_char c) = lower_char c.
Proof. destruct c as [[] [] [] [] [] [] [] []]; reflexivity. Qed.

Lemma lower_idempotent (s : string) : lower (lower s) = lower s.
Proof.
  induction s as [|c s IH]; [reflexivity|].
  cbn [lower]. rewrite lower_char_idempotent, IH. reflexivity.
Qed.

Lemma chars_lower (s : string) : chars (lower s) = map lower_char (chars s).
Proof.
  unfold chars. induction s as [|c s IH]; [reflexivity|].
  cbn [lower list_ascii_of_string map]. rewrite IH. reflexivity.
Qed.

Lemma lower_fixed (s : string) :
  (forall c, In c (chars s) -> lower_char c = c) -> lower s = s.
Proof.
  unfold chars. induction s as [|c s IH]; intros Hfix; [reflexivity|].
  cbn [lower]. cbn [list_ascii_of_string] in Hfix.
  rewrite Hfix by (left; reflexivity).
  rewrite IH by (intros c' Hc'; apply Hfix; right; exact Hc').
  reflexivity.
Qed.

(** X1: whatever is configured, every target word of a constructed counter
    is in lower case, and so is its channel name. *)
Theorem target_words_are_lowercase
    (channel : string) (words : option (list string)) (q : string) (now : Z) :
  let self := init channel words q now in
  Forall (fun w => lower w = w) (target_words self) /\
  lower (channel_name self) = channel_name self.
Proof.
  cbn zeta. cbn [init target_words channel_name].
  split; [|apply lower_idempotent].
  destruct words as [[|w ws]|].
  - repeat constructor.
  - change (init_target_words (Some (w :: ws))) with (map lower (w :: ws)).
    apply Forall_forall. intros x Hx.
    apply list_elem_of_In, in_map_iff in Hx as (y & <- & _).
    apply lower_idempotent.
  - repeat constructor.
Qed.

(** X2: a word that is not in lower case is never found in a lowercased
    transcript; lowering the configured words is what lets them match. *)
Theorem word_not_in_lower_case_never_matches (word raw : string) :
  lower word <> word -> findall word (lower raw) = [].
Proof.
  intros Hup. apply findall_nil_iff. intros i.
  destruct (match_at (chars word) (chars (lower raw)) i) eqn:Hm; [|reflexivity].
  exfalso. apply Hup, lower_fixed. intros c Hc.
  unfold match_at in Hm. apply andb_prop in Hm as [Hm _].
  apply andb_prop in Hm as [_ Hlit].
  apply list_elem_of_In, list_elem_of_lookup in Hc as [k Hk].
  pose proof (literal_at_lookup _ _ _ _ _ Hlit Hk) as Ht.
  rewrite chars_lower, list_lookup_fmap in Ht.
  destruct (chars raw !! (i + k)%nat) as [c'|]; [|discriminate Ht].
  cbn in Ht. injection Ht as <-. apply lower_char_idempotent.
Qed.

Lemma word_not_in_lower_case_never_matches_witness :
  findall "Fuck" (lower "Fuck this") = [].
Proof.
  apply (word_not_in_lower_case_never_matches "Fuck" "Fuck this").
  vm_compute. discriminate.
Defined.

(** ** The positions [findall] returns *)

Lemma match_at_literal (w t : list ascii) (i : nat) :
  match_at w t i = true -> literal_at w t i = true.
Proof.
  unfold match_at. intros Hm. apply andb_prop in Hm as [Hm _].
  apply andb_prop in Hm as [_ Hm]. exact Hm.
Qed.

Lemma match_at_fits (w t : list ascii) (i : nat) :
  match_at w t i = true -> (i + length w <= length t)%nat.
Proof.
  intros Hm. destruct w as [|a w].
  - cbn [length]. destruct (Nat.le_gt_cases i (length t)) as [Hle|Hgt]; [lia|].
    rewrite match_at_beyond in Hm by lia. discriminate Hm.
  - apply literal_at_fits; [discriminate | apply match_at_literal, Hm].
Qed.

Lemma search_from_sound (w t : list ascii) :
  forall fuel pos : nat,
    Forall (fun p => (pos <= p)%nat /\ match_at w t p = true)
           (search_from w t fuel pos).
Proof.
  induction fuel as [|fuel IH]; intros pos; [constructor|].
  cbn [search_from]. destruct (match_at w t pos) eqn:Hm.
  - constructor; [split; [lia | exact Hm]|].
    eapply Forall_impl; [apply IH|]. cbn beta. intros p [Hp Hmp].
    split; [lia | exact Hmp].
  - eapply Forall_impl; [apply IH|]. cbn beta. intros p [Hp Hmp].
    split; [lia | exact Hmp].
Qed.

Lemma search_from_spaced (w t : list ascii) :
  forall fuel pos : nat,
    StronglySorted (fun p q => (p + Nat.max 1 (length w) <= q)%nat)
                   (search_from w t fuel pos).
Proof.
  induction fuel as [|fuel IH]; intros pos; [constructor|].
  cbn [search_from]. destruct (match_at w t pos).
  - constructor; [apply IH|].
    eapply Forall_impl; [apply search_from_sound|].
    cbn beta. intros p [Hp _]. exact Hp.
  - apply IH.
Qed.

Lemma search_from_bound (w t : list ascii) :
  forall fuel pos : nat,
    (length (search_from w t fuel pos) * length w <= length t - pos)%nat.
Proof.
  induction fuel as [|fuel IH]; intros pos; [cbn; lia|].
  cbn [search_from]. destruct (match_at w t pos) eqn:Hm.
  - apply match_at_fits in Hm. cbn [length].
    specialize (IH (pos + Nat.max 1 (length w))%nat). nia.
  - specialize (IH (S pos)). lia.
Qed.

(** X3: every match that [findall] returns lies at a position where the
    pattern matches and the word fits into the text; the matches come from
    left to right and do not overlap; so a word of length n is counted at
    most len(text) / n times. *)
Theorem findall_matches_are_disjoint (word text : string) :
  let w := chars word in
  let t := chars text in
  Forall (fun p => match_at w t p = true /\ (p + length w <= length t)%nat)
         (match_positions w t) /\
  StronglySorted (fun p q => (p + Nat.max 1 (length w) <= q)%nat)
                 (match_positions w t) /\
  (length (findall word text) * length w <= length t)%nat.
Proof.
  cbn zeta. unfold match_positions. split; [|split].
  - eapply Forall_impl; [apply search_from_sound|].
    cbn beta. intros p [_ Hm]. split; [exact Hm | apply match_at_fits, Hm].
  - apply search_from_spaced.
  - rewrite length_findall. unfold match_positions.
    pose proof (search_from_bound (chars word) (chars text)
                  (S (length (chars text))) 0). lia.
Qed.

Lemma search_from_covers (w t : list ascii) :
  forall fuel pos : nat,
    (S (length t) <= fuel + pos)%nat ->
    forall i : nat,
      (pos <= i)%nat -> match_at w t i = true ->
      exists p, In p (search_from w t fuel pos)
                /\ (p <= i < p + Nat.max 1 (length w))%nat.
Proof.
  induction fuel as [|fuel IH]; intros pos Hfuel i Hi Hm.
  - rewrite match_at_beyond in Hm by lia. discriminate Hm.
  - cbn [search_from]. destruct (match_at w t pos) eqn:Hpos.
    + destruct (Nat.lt_ge_cases i (pos + Nat.max 1 (length w))) as [Hin|Hout].
      * exists pos. split; [left; reflexivity | lia].
      * destruct (IH (pos + Nat.max 1 (length w))%nat) with (i := i)
          as (p & Hp & Hr); [lia | lia | exact Hm |].
        exists p. split; [right; exact Hp | exact Hr].
    + assert (i <> pos) by (intros ->; congruence).
      apply (IH (S pos)); [lia | lia | exact Hm].
Qed.

(** X4: the scan is leftmost-first: a position where the pattern matches is
    either counted itself or lies inside a counted match that starts before
    it. *)
Theorem uncounted_match_lies_in_counted_one (word text : string) (i : nat) :
  match_at (chars word) (chars text) i = true ->
  exists p,
    In p (match_positions (chars word) (chars text))
    /\ (p <= i < p + Nat.max 1 (length (chars word)))%nat.
Proof.
  intros Hm. unfold match_positions.
  apply search_from_covers; [lia | lia | exact Hm].
Qed.

Lemma uncounted_match_lies_in_counted_one_witness :
  exists p,
    In p (match_positions (chars "a a") (chars "a a a"))
    /\ (p <= 2 < p + Nat.max 1 (length (chars "a a")))%nat.
Proof.
  apply (uncounted_match_lies_in_counted_one "a a" "a a a" 2).
  reflexivity.
Defined.

Lemma match_at_empty_word (t : list ascii) (i : nat) :
  match_at [] t i = at_boundary t i.
Proof.
  unfold match_at, literal_at. cbn [length starts_with].
  rewrite Nat.add_0_r, andb_true_r. apply andb_diag.
Qed.

Lemma search_from_empty_word (t : list ascii) :
  forall fuel pos : nat,
    (S (length t) <= fuel + pos)%nat ->
    search_from [] t fuel pos
    = List.filter (at_boundary t) (seq pos (S (length t) - pos)).
Proof.
  induction fuel as [|fuel IH]; intros pos Hfuel.
  - replace (S (length t) - pos)%nat with 0%nat by lia. reflexivity.
  - cbn [search_from length Nat.max].
    destruct (Nat.le_gt_cases pos (length t)) as [Hin|Hout].
    + replace (S (length t) - pos)%nat with (S (length t - pos)) by lia.
      cbn [seq List.filter]. rewrite <- match_at_empty_word.
      replace (length t - pos)%nat with (S (length t) - S pos)%nat by lia.
      destruct (match_at [] t pos).
      * rewrite Nat.add_1_r, IH by lia. reflexivity.
      * rewrite IH by lia. reflexivity.
    + rewrite match_at_beyond by lia. rewrite IH by lia.
      replace (S (length t) - S pos)%nat with 0%nat by lia.
      replace (S (length t) - pos)%nat with 0%nat by lia.
      reflexivity.
Qed.

(** X5: the empty word, which a trailing comma in TARGET_WORDS puts among
    the target words, is counted once at every word boundary of the
    transcript. *)
Theorem empty_word_counts_every_boundary (text : string) :
  length (findall "" text)
  = length (List.filter (at_boundary (chars text))
              (seq 0 (S (length (chars text))))).
Proof.
  rewrite length_findall. unfold match_positions.
  change (chars "") with (@nil ascii).
  rewrite search_from_empty_word by lia.
  rewrite Nat.sub_0_r. reflexivity.
Qed.

(** ** Counts of a whole run *)

Lemma counter_get_process_chunk (targets : list string) (st : tally)
    (r : recognition) (w : string) :
  counter_get (word_counts (process_chunk targets st r)) w
  = counter_get (word_counts st) w
    + Z.of_nat (count_occ string_dec targets w) * clip_matches w r.
Proof.
  destruct r as [raw| |e]; cbn [process_chunk clip_matches word_counts].
  - apply counter_get_match_words.
  - lia.
  - lia.
Qed.

Lemma counter_get_process_unit (targets : list string)
    (clips : list recognition) (w : string) :
  forall st,
    counter_get (word_counts (process_unit targets st clips)) w
    = counter_get (word_counts st) w
      + Z.of_nat (count_occ string_dec targets w) * unit_matches w clips.
Proof.
  induction clips as [|r clips IH]; intros st.
  - cbn [process_unit fold_left unit_matches fold_right]. lia.
  - rewrite process_unit_cons, IH, counter_get_process_chunk.
    cbn [unit_matches fold_right]. fold (unit_matches w clips). lia.
Qed.

Lemma counter_get_process_audio (targets : list string)
    (units : list (list recognition)) (w : string) :
  forall st,
    counter_get (word_counts (process_audio targets st units)) w
    = counter_get (word_counts st) w
      + Z.of_nat (count_occ string_dec targets w) * total_matches w units.
Proof.
  induction units as [|u units IH]; intros st.
  - cbn [process_audio fold_left total_matches fold_right]. lia.
  - change (process_audio targets st (u :: units))
      with (process_audio targets (process_unit targets st u) units).
    rewrite IH, counter_get_process_unit.
    cbn [total_matches fold_right]. fold (total_matches w units). lia.
Qed.

Lemma clip_matches_nonneg (w : string) (r : recognition) :
  0 <= clip_matches w r.
Proof. destruct r; cbn [clip_matches]; lia. Qed.

Lemma unit_matches_nonneg (w : string) (clips : list recognition) :
  0 <= unit_matches w clips.
Proof.
  induction clips as [|r clips IH]; cbn [unit_matches fold_right]; [lia|].
  fold (unit_matches w clips). pose proof (clip_matches_nonneg w r). lia.
Qed.

Lemma total_matches_nonneg (w : string) (units : list (list recognition)) :
  0 <= total_matches w units.
Proof.
  induction units as [|u units IH]; cbn [total_matches fold_right]; [lia|].
  fold (total_matches w units). pose proof (unit_matches_nonneg w u). lia.
Qed.

Lemma unit_matches_app (w : string) (cs1 cs2 : list recognition) :
  unit_matches w (cs1 ++ cs2) = unit_matches w cs1 + unit_matches w cs2.
Proof.
  induction cs1 as [|r cs1 IH]; [reflexivity|].
  rewrite <- app_comm_cons. cbn [unit_matches fold_right].
  fold (unit_matches w (cs1 ++ cs2)).
  fold (unit_matches w cs1). lia.
Qed.

Lemma total_matches_concat (w : string) (units : list (list recognition)) :
  total_matches w units = unit_matches w (concat units).
Proof.
  induction units as [|u units IH]; [reflexivity|].
  cbn [total_matches fold_right concat]. fold (total_matches w units).
  rewrite unit_matches_app, IH. reflexivity.
Qed.

Lemma unit_matches_permutation (w : string) (cs1 cs2 : list recognition) :
  Permutation cs1 cs2 -> unit_matches w cs1 = unit_matches w cs2.
Proof.
  induction 1 as [|r cs1 cs2 _ IH|r1 r2 cs|cs1 cs2 cs3 _ IH1 _ IH2].
  - reflexivity.
  - cbn [unit_matches fold_right]. fold (unit_matches w cs1).
    fold (unit_matches w cs2). lia.
  - cbn [unit_matches fold_right]. lia.
  - lia.
Qed.

Lemma total_matches_app (w : string) (us1 us2 : list (list recognition)) :
  total_matches w (us1 ++ us2) = total_matches w us1 + total_matches w us2.
Proof.
  rewrite !total_matches_concat, concat_app. apply unit_matches_app.
Qed.

(** ** Failing and silent sub-clips *)

(** C7: when the service fails for one sub-clip, the failure is printed and
    the run goes on: at its end the count of every word is its count
    before the run plus, for every entry of the target list equal to it,
    its matches in all the other sub-clips, those of the units before and
    behind the failing one and those of the same unit; these are the
    counts of the same run without the failing sub-clip.  A sub-clip
    without recognisable speech leaves no trace at all: the run ends in the
    same state, printed lines included, as without it.  With five units of
    which the third fails, the matches of the units 1, 2, 4 and 5 (1, 1, 1
    and 2 of them) give the count 5. *)
Theorem service_error_does_not_stop_counting
    (targets : list string) (st : tally)
    (before after : list (list recognition))
    (pre post : list recognition) (detail w : string) :
  let failing :=
    process_audio targets st
      (before ++ [pre ++ RequestError detail :: post] ++ after) in
  let silent :=
    process_audio targets st
      (before ++ [pre ++ UnknownValueError :: post] ++ after) in
  let without :=
    process_audio targets st (before ++ [pre ++ post] ++ after) in
  let scenario :=
    process_audio ["fuck"%string] (Tally ∅ [])
      [[Recognized "fuck"]; [Recognized "oh fuck"];
       [RequestError "recognition request failed"];
       [Recognized "What the FUCK"]; [Recognized "fuck fuck"]] in
  word_counts failing = word_counts without /\
  counter_get (word_counts failing) w
  = counter_get (word_counts st) w
    + Z.of_nat (count_occ string_dec targets w)
      * (total_matches w before + unit_matches w pre
         + unit_matches w post + total_matches w after) /\
  In (OutServiceError detail) (printed failing) /\
  silent = without /\
  counter_get (word_counts scenario) "fuck" = 5 /\
  In (OutServiceError "recognition request failed") (printed scenario).
Proof.
  cbn zeta. split; [|split; [|split; [|split; [|split]]]].
  - rewrite !process_audio_app, !process_audio_single, !process_unit_app.
    rewrite !process_unit_cons. cbn [process_chunk].
    apply process_audio_counts_ext, process_unit_counts_ext. reflexivity.
  - rewrite counter_get_process_audio, !total_matches_app.
    cbn [total_matches fold_right]. rewrite unit_matches_app.
    cbn [unit_matches fold_right clip_matches].
    fold (unit_matches w post). lia.
  - rewrite !process_audio_app, !process_audio_single, !process_unit_app.
    rewrite !process_unit_cons. cbn [process_chunk].
    apply process_audio_printed, process_unit_printed.
    cbn [printed]. apply in_or_app. right. left. reflexivity.
  - rewrite !process_audio_app, !process_audio_single, !process_unit_app.
    rewrite !process_unit_cons. reflexivity.
  - vm_compute. reflexivity.
  - vm_compute. tauto.
Qed.

(** X6: the count of a word after a run is its count before the run plus,
    for every entry of the target list equal to the word, the number of
    its matches summed over all recognised sub-clips of all units: nothing
    is lost and nothing is counted that was not matched. *)
Theorem final_count_is_sum_of_matches
    (targets : list string) (st : tally) (units : list (list recognition))
    (w : string) :
  counter_get (word_counts (process_audio targets st units)) w
  = counter_get (word_counts st) w
    + Z.of_nat (count_occ string_dec targets w) * total_matches w units.
Proof. apply counter_get_process_audio. Qed.

(** X7: counts never go down: processing further units leaves every count
    at least where it was, and the counts of a fresh counter are never
    negative. *)
Theorem counts_never_decrease
    (targets : list string) (st : tally)
    (units more : list (list recognition)) (w : string) :
  counter_get (word_counts (process_audio targets st units)) w
  <= counter_get (word_counts (process_audio targets st (units ++ more))) w
  /\ 0 <= counter_get
            (word_counts (process_audio targets (Tally ∅ []) units)) w.
Proof.
  pose proof (total_matches_nonneg w more) as Hmore.
  pose proof (total_matches_nonneg w units) as Hunits.
  split.
  - rewrite process_audio_app.
    rewrite (counter_get_process_audio targets more). nia.
  - rewrite counter_get_process_audio.
    cbn [word_counts]. unfold counter_get at 1. rewrite lookup_empty.
    cbn [default]. nia.
Qed.

(** X8: the final counts do not depend on the order of the sub-clips nor on
    how they are grouped into units: two queues with the same sub-clips
    end in the same count for every word. *)
Theorem counts_independent_of_order
    (targets : list string) (st : tally)
    (units1 units2 : list (list recognition)) (w : string) :
  Permutation (concat units1) (concat units2) ->
  counter_get (word_counts (process_audio targets st units1)) w
  = counter_get (word_counts (process_audio targets st units2)) w.
Proof.
  intros Hperm. rewrite !counter_get_process_audio, !total_matches_concat.
  rewrite (unit_matches_permutation w _ _ Hperm). reflexivity.
Qed.

Lemma counts_independent_of_order_witness :
  counter_get
    (word_counts
       (process_audio ["fuck"%string] (Tally ∅ [])
          [[Recognized "fuck"]; [RequestError "down"; Recognized "oh"]]))
    "fuck"
  = counter_get
      (word_counts
         (process_audio ["fuck"%string] (Tally ∅ [])
            [[RequestError "down"; Recognized "fuck"; Recognized "oh"]]))
      "fuck".
Proof.
  apply (counts_independent_of_order ["fuck"%string] (Tally ∅ [])
           [[Recognized "fuck"]; [RequestError "down"; Recognized "oh"]]
           [[RequestError "down"; Recognized "fuck"; Recognized "oh"]]).
  cbn. apply perm_swap.
Defined.

(** ** Runs that print nothing *)

Lemma match_words_quiet (targets ws : list string) (text : string) :
  forallb (fun w => (length (findall w text) =? 0)%nat) ws = true ->
  forall st, match_words targets ws text st = st.
Proof.
  unfold match_words.
  induction ws as [|w ws IH]; intros Hq st; [reflexivity|].
  cbn [forallb] in Hq. apply andb_prop in Hq as [Hw Hq].
  apply Nat.eqb_eq in Hw. cbn [fold_left].
  unfold match_word at 2. rewrite Hw. cbn [Z.of_nat Z.ltb Z.compare].
  apply IH, Hq.
Qed.

Lemma match_words_printed_length (targets ws : list string) (text : string) :
  forall st,
    (length (printed st)
     <= length (printed (match_words targets ws text st)))%nat
    /\ (forallb (fun w => (length (findall w text) =? 0)%nat) ws = false ->
        (length (printed st)
         < length (printed (match_words targets ws text st)))%nat).
Proof.
  unfold match_words.
  induction ws as [|w ws IH]; intros st.
  - cbn [fold_left forallb]. split; [lia | discriminate].
  - cbn [fold_left forallb].
    destruct (IH (match_word targets text st w)) as [Hle Hlt].
    assert (Hstep :
      (length (printed st) <= length (printed (match_word targets text st w)))%nat
      /\ ((length (findall w text) =? 0)%nat = false ->
          (length (printed st)
           < length (printed (match_word targets text st w)))%nat)).
    { unfold match_word.
      destruct (length (findall w text)) as [|n] eqn:Hn.
      - change (0 <? Z.of_nat 0) with false. cbn [Nat.eqb].
        split; [lia | discriminate].
      - replace (0 <? Z.of_nat (S n)) with true
          by (symmetry; apply Z.ltb_lt; lia).
        cbn [printed]. rewrite length_app.
        cbn [length]. split; intros; lia. }
    destruct Hstep as [Hle1 Hlt1].
    split; [lia|].
    intros Hq. apply andb_false_iff in Hq as [Hq|Hq].
    + specialize (Hlt1 Hq). lia.
    + specialize (Hlt Hq). lia.
Qed.

Lemma process_chunk_quiet (targets : list string) (st : tally)
    (r : recognition) :
  quiet targets r = true -> process_chunk targets st r = st.
Proof.
  destruct r as [raw| |e]; cbn [quiet process_chunk]; intros Hq.
  - apply match_words_quiet, Hq.
  - reflexivity.
  - discriminate Hq.
Qed.

Lemma process_chunk_printed_length (targets : list string) (st : tally)
    (r : recognition) :
  (length (printed st)
   <= length (printed (process_chunk targets st r)))%nat
  /\ (quiet targets r = false ->
      (length (printed st)
       < length (printed (process_chunk targets st r)))%nat).
Proof.
  destruct r as [raw| |e]; cbn [quiet process_chunk printed].
  - apply match_words_printed_length.
  - split; [lia | discriminate].
  - rewrite length_app. cbn [length]. split; intros; lia.
Qed.

Lemma process_unit_printed_length (targets : list string)
    (clips : list recognition) :
  forall st,
    (length (printed st)
     <= length (printed (process_unit targets st clips)))%nat
    /\ (forallb (quiet targets) clips = false ->
        (length (printed st)
         < length (printed (process_unit targets st clips)))%nat).
Proof.
  induction clips as [|r clips IH]; intros st.
  - cbn [process_unit fold_left forallb]. split; [lia | discriminate].
  - rewrite process_unit_cons. cbn [forallb].
    destruct (IH (process_chunk targets st r)) as [Hle Hlt].
    destruct (process_chunk_printed_length targets st r) as [Hle1 Hlt1].
    split; [lia|].
    intros Hq. apply andb_false_iff in Hq as [Hq|Hq].
    + specialize (Hlt1 Hq). lia.
    + specialize (Hlt Hq). lia.
Qed.

Lemma process_audio_printed_length (targets : list string)
    (units : list (list recognition)) :
  forall st,
    (length (printed st)
     <= length (printed (process_audio targets st units)))%nat
    /\ (forallb (forallb (quiet targets)) units = false ->
        (length (printed st)
         < length (printed (process_audio targets st units)))%nat).
Proof.
  induction units as [|u units IH]; intros st.
  - cbn [process_audio fold_left forallb]. split; [lia | discriminate].
  - change (process_audio targets st (u :: units))
      with (process_audio targets (process_unit targets st u) units).
    cbn [forallb].
    destruct (IH (process_unit targets st u)) as [Hle Hlt].
    destruct (process_unit_printed_length targets u st) as [Hle1 Hlt1].
    split; [lia|].
    intros Hq. apply andb_false_iff in Hq as [Hq|Hq].
    + specialize (Hlt1 Hq). lia.
    + specialize (Hlt Hq). lia.
Qed.

Lemma process_audio_quiet (targets : list string)
    (units : list (list recognition)) :
  forallb (forallb (quiet targets)) units = true ->
  forall st, process_audio targets st units = st.
Proof.
  induction units as [|u units IH]; intros Hq st; [reflexivity|].
  cbn [forallb] in Hq. apply andb_prop in Hq as [Hu Hq].
  change (process_audio targets st (u :: units))
    with (process_audio targets (process_unit targets st u) units).
  rewrite IH by exact Hq. clear IH Hq. revert st.
  induction u as [|r u IHu]; intros st; [reflexivity|].
  cbn [forallb] in Hu. apply andb_prop in Hu as [Hr Hu].
  rewrite process_unit_cons, process_chunk_quiet by exact Hr.
  apply IHu, Hu.
Qed.

(** X9: a run leaves the counter exactly as it was, and prints nothing,
    precisely when no sub-clip failed at the service and no target word was
    found in any transcript. *)
Theorem run_changes_nothing_iff_quiet
    (targets : list string) (st : tally) (units : list (list recognition)) :
  process_audio targets st units = st
  <-> forallb (forallb (quiet targets)) units = true.
Proof.
  split.
  - intros Hsame.
    destruct (forallb (forallb (quiet targets)) units) eqn:Hq; [reflexivity|].
    destruct (process_audio_printed_length targets units st) as [_ Hlt].
    specialize (Hlt Hq). rewrite Hsame in Hlt. lia.
  - intros Hq. apply process_audio_quiet, Hq.
Qed.

(** ** The queue of recordings *)

Lemma stream_loop_queue_grows (reads : list (list Byte.byte)) :
  forall (frames : list (list Byte.byte)) (queue : list wav),
  exists later, snd (stream_loop reads frames queue) = queue ++ later.
Proof.
  induction reads as [|data reads IH]; intros frames queue.
  - exists []. cbn [stream_loop snd]. rewrite app_nil_r. reflexivity.
  - destruct data as [|b data].
    + exists []. cbn [stream_loop snd]. rewrite app_nil_r. reflexivity.
    + cbn [stream_loop].
      destruct (chunks_per_recording <=? length (frames ++ [b :: data]))%nat.
      * destruct (IH [] (queue ++ [write_wav (frames ++ [b :: data])]))
          as [later Hlater].
        exists (write_wav (frames ++ [b :: data]) :: later).
        rewrite Hlater, <- app_assoc. reflexivity.
      * apply IH.
Qed.

Lemma stream_loop_extends (reads more : list (list Byte.byte)) :
  forall (frames : list (list Byte.byte)) (queue : list wav),
  exists later,
    snd (stream_loop (reads ++ more) frames queue)
    = snd (stream_loop reads frames queue) ++ later.
Proof.
  induction reads as [|data reads IH]; intros frames queue.
  - rewrite app_nil_l. apply stream_loop_queue_grows.
  - rewrite <- app_comm_cons. destruct data as [|b data].
    + exists []. cbn [stream_loop snd]. rewrite app_nil_r. reflexivity.
    + cbn [stream_loop].
      destruct (chunks_per_recording <=? length (frames ++ [b :: data]))%nat;
        apply IH.
Qed.

(** X10: recordings are queued in the order of capture and never taken
    back or changed: the queue left by a longer stream starts with the
    queue left by any of its beginnings. *)
Theorem queue_only_grows_at_its_end (reads more : list (list Byte.byte)) :
  exists later,
    stream_audio (reads ++ more) = stream_audio reads ++ later.
Proof. unfold stream_audio. apply stream_loop_extends. Qed.

Lemma stream_loop_stops_at_eof (reads rest : list (list Byte.byte)) :
  forall (frames : list (list Byte.byte)) (queue : list wav),
    stream_loop (reads ++ [] :: rest) frames queue
    = stream_loop reads frames queue.
Proof.
  induction reads as [|data reads IH]; intros frames queue.
  - reflexivity.
  - rewrite <- app_comm_cons. destruct data as [|b data]; [reflexivity|].
    cbn [stream_loop].
    destruct (chunks_per_recording <=? length (frames ++ [b :: data]))%nat;
      apply IH.
Qed.

(** X11: the first zero-length read ends the capture for good: whatever the
    stream would deliver afterwards is not recorded. *)
Theorem nothing_recorded_after_end_of_stream
    (reads rest : list (list Byte.byte)) :
  stream_audio (reads ++ [] :: rest) = stream_audio reads.
Proof. unfold stream_audio. rewrite stream_loop_stops_at_eof. reflexivity. Qed.

Section Recordings.
Variable ok : list Byte.byte -> Prop.

Lemma stream_loop_recordings (reads : list (list Byte.byte)) :
  Forall ok reads ->
  forall (frames : list (list Byte.byte)) (queue : list wav),
    Forall ok frames ->
    (length frames < chunks_per_recording)%nat ->
    Forall (fun u => exists fs, length fs = chunks_per_recording
                                /\ Forall ok fs /\ u = write_wav fs) queue ->
    Forall (fun u => exists fs, length fs = chunks_per_recording
                                /\ Forall ok fs /\ u = write_wav fs)
           (snd (stream_loop reads frames queue)).
Proof.
  pose proof chunks_per_recording_78 as Hc.
  induction 1 as [|data reads Hdata Hreads IH]; intros frames queue Hf Hlen Hq.
  - exact Hq.
  - destruct data as [|b data]; [exact Hq|].
    cbn [stream_loop].
    assert (Hf' : Forall ok (frames ++ [b :: data]))
      by (apply Forall_app; split; [exact Hf | constructor; [exact Hdata|constructor]]).
    destruct (Nat.leb_spec chunks_per_recording
                (length (frames ++ [b :: data]))) as [Hfull|Hpart].
    + apply IH; [constructor | cbn [length]; lia |].
      apply Forall_app. split; [exact Hq|].
      constructor; [|constructor].
      exists (frames ++ [b :: data]). split; [|split; [exact Hf' | reflexivity]].
      rewrite length_app in *. cbn [length] in *. lia.
    + apply IH; assumption.
Qed.
End Recordings.

Lemma length_concat_bound (c : nat) (fs : list (list Byte.byte)) :
  Forall (fun d => (length d <= c)%nat) fs ->
  (length (concat fs) <= length fs * c)%nat.
Proof.
  induction 1 as [|d fs Hd _ IH]; [cbn; lia|].
  cbn [concat length]. rewrite length_app. lia.
Qed.

(** X12: a read returns at most [chunk] = 1024 bytes, so a queued recording
    holds at most 78 * 1024 bytes.  With the parameters written into its
    header (16000 frames per second, 2 bytes per frame, 1 channel) that is
    less than half of [record_seconds] = 5 seconds of sound. *)
Theorem recording_shorter_than_half_the_interval
    (reads : list (list Byte.byte)) :
  Forall (fun data => (length data <= Z.to_nat chunk)%nat) reads ->
  Forall (fun u =>
            (length (wav_frames u) <= 78 * 1024)%nat /\
            2 * Z.of_nat (length (wav_frames u))
            < record_seconds * (framerate u * sampwidth u * nchannels u))
         (stream_audio reads).
Proof.
  intros Hreads. unfold stream_audio.
  pose proof chunks_per_recording_78 as Hc.
  eapply Forall_impl;
    [apply (stream_loop_recordings
              (fun data => (length data <= Z.to_nat chunk)%nat) reads Hreads);
     [constructor | cbn [length]; lia | constructor]|].
  cbn beta. intros u (fs & Hlen & Hfs & ->).
  apply length_concat_bound in Hfs. rewrite Hlen, Hc in Hfs.
  cbn [write_wav wav_frames framerate sampwidth nchannels].
  unfold chunk, record_seconds, rate, sample_size, channels in *.
  split; lia.
Qed.

Lemma recording_shorter_than_half_the_interval_witness :
  Forall (fun u =>
            (length (wav_frames u) <= 78 * 1024)%nat /\
            2 * Z.of_nat (length (wav_frames u))
            < record_seconds * (framerate u * sampwidth u * nchannels u))
         (stream_audio (replicate 80 [Byte.x01; Byte.x02])).
Proof.
  apply (recording_shorter_than_half_the_interval
           (replicate 80 [Byte.x01; Byte.x02])).
  apply Forall_replicate. cbn [length]. unfold chunk. lia.
Defined.

(** ** The stream handed to ffmpeg *)

Lemma dict_get_in (key : string) (items : list (string * string))
    (v : string) :
  dict_get key items = Some v -> In (key, v) items.
Proof.
  induction items as [|[k v'] items IH]; [discriminate|].
  cbn [dict_get]. destruct (String.eqb_spec k key) as [->|Hne].
  - intros [= ->]. left. reflexivity.
  - intros Hget. right. apply IH, Hget.
Qed.

(** X13: as soon as the channel offers a stream one is chosen, and it is
    one of those offered: the one of the requested quality, or, when that
    quality is missing, the first one. *)
Theorem a_stream_is_chosen_when_one_exists
    (quality : string) (streams : list (string * string)) :
  streams <> [] ->
  exists q url,
    In (q, url) streams /\
    select_stream quality streams = Some url /\
    (q = quality
     \/ (dict_get quality streams = None /\ head streams = Some (q, url))).
Proof.
  intros Hne. destruct streams as [|[q0 url0] rest]; [contradiction|].
  unfold select_stream.
  destruct (dict_get quality ((q0, url0) :: rest)) as [url|] eqn:Hget.
  - exists quality, url. split; [apply dict_get_in, Hget|].
    split; [reflexivity | left; reflexivity].
  - exists q0, url0. split; [left; reflexivity|].
    split; [reflexivity | right; split; reflexivity].
Qed.

Lemma a_stream_is_chosen_when_one_exists_witness :
  exists q url,
    In (q, url) [("720p", "u1"); ("160p", "u2")]%string /\
    select_stream "audio_only" [("720p", "u1"); ("160p", "u2")]%string
    = Some url /\
    (q = "audio_only"%string
     \/ (dict_get "audio_only" [("720p", "u1"); ("160p", "u2")]%string = None
         /\ head [("720p", "u1"); ("160p", "u2")]%string = Some (q, url))).
Proof.
  apply (a_stream_is_chosen_when_one_exists "audio_only"
           [("720p", "u1"); ("160p", "u2")]%string).
  discriminate.
Defined.

(** ** The saved statistics *)

(** X14: the record saved after a session has one entry for every target
    word, also for those never heard, and no other entry; the entry of a
    word is the number of its matches in the session, once for every entry
    of the target list equal to it. *)
Theorem saved_stats_cover_the_target_words
    (channel : string) (words : option (list string)) (q : string)
    (started now : Z) (units : list (list recognition)) (w : string) :
  let self := consume (init channel words q started) units in
  s_target_words (save_stats self now) !! w
  = if decide (w ∈ target_words self)
    then Some (Z.of_nat (count_occ string_dec (target_words self) w)
               * total_matches w units)
    else None.
Proof.
  cbn zeta. cbn [save_stats s_target_words]. rewrite lookup_publish.
  destruct (decide _) as [Hin|Hout].
  - f_equal. unfold count_of.
    cbn [consume with_state state target_words init].
    rewrite counter_get_process_audio. cbn [word_counts].
    unfold counter_get at 1. rewrite lookup_empty. cbn [default]. lia.
  - apply lookup_empty.
Qed.

(** ** The running time as text *)

Lemma get_elapsed_time_bounds (start now : Z) :
  0 <= hours (get_elapsed_time start now) < 24 /\
  0 <= minutes (get_elapsed_time start now) < 60 /\
  0 <= seconds (get_elapsed_time start now) < 60.
Proof.
  unfold get_elapsed_time. cbn [hours minutes seconds].
  pose proof (timedelta_seconds_range (now - start)) as Hr.
  set (s := timedelta_seconds (now - start)) in *.
  pose proof (Z.mod_pos_bound s 3600 ltac:(lia)) as H2.
  pose proof (Z.mod_pos_bound (s mod 3600) 60 ltac:(lia)) as H4.
  assert (0 <= s / 3600) by (apply Z.div_pos; lia).
  assert (s / 3600 < 24) by (apply Z.div_lt_upper_bound; lia).
  assert (0 <= (s mod 3600) / 60) by (apply Z.div_pos; lia).
  assert ((s mod 3600) / 60 < 60) by (apply Z.div_lt_upper_bound; lia).
  lia.
Qed.

Lemma format_02_two_digits (n : Z) :
  0 <= n < 100 ->
  format_02 n = String (digit (n / 10)) (String (digit (n mod 10)) "").
Proof.
  intros Hn.
  assert (Hall :
    forallb (fun k =>
               String.eqb (format_02 (Z.of_nat k))
                 (String (digit (Z.of_nat k / 10))
                    (String (digit (Z.of_nat k mod 10)) "")))
            (seq 0 100) = true)
    by (vm_compute; reflexivity).
  rewrite forallb_forall in Hall.
  specialize (Hall (Z.to_nat n)).
  rewrite Z2Nat.id in Hall by lia.
  apply String.eqb_eq, Hall, in_seq. lia.
Qed.

(** X15: the running time in the heading always reads HH:MM:SS: two
    decimal digits for the hours, the minutes and the seconds each, eight
    characters in all. *)
Theorem running_time_reads_hh_mm_ss (start now : Z) :
  let e := get_elapsed_time start now in
  running_time_text e
  = String (digit (hours e / 10)) (String (digit (hours e mod 10))
      (String ":"
         (String (digit (minutes e / 10)) (String (digit (minutes e mod 10))
            (String ":"
               (String (digit (seconds e / 10))
                  (String (digit (seconds e mod 10)) ""))))))) /\
  String.length (running_time_text e) = 8%nat.
Proof.
  cbn zeta. destruct (get_elapsed_time_bounds start now) as (Hh & Hm & Hs).
  assert (Htext :
    running_time_text (get_elapsed_time start now)
    = String (digit (hours (get_elapsed_time start now) / 10))
        (String (digit (hours (get_elapsed_time start now) mod 10))
           (String ":"
              (String (digit (minutes (get_elapsed_time start now) / 10))
                 (String (digit (minutes (get_elapsed_time start now) mod 10))
                    (String ":"
                       (String
                          (digit (seconds (get_elapsed_time start now) / 10))
                          (String
                             (digit
                                (seconds (get_elapsed_time start now) mod 10))
                             "")))))))).
  { unfold running_time_text.
    rewrite !format_02_two_digits by lia. reflexivity. }
  split; [exact Htext | rewrite Htext; reflexivity].
Qed.

(** ** The words of TARGET_WORDS *)

Lemma split_nonempty (sep : ascii) (s : string) : split sep s <> [].
Proof.
  destruct s as [|c s]; cbn [split]; [discriminate|].
  destruct (Ascii.eqb c sep); [discriminate|].
  destruct (split sep s); discriminate.
Qed.

Lemma join_cons_char (sep : string) (c : ascii) (piece : string)
    (pieces : list string) :
  join sep (String c piece :: pieces)
  = String c (join sep (piece :: pieces)).
Proof. destruct pieces; reflexivity. Qed.

Lemma join_cons_cons (sep piece next : string) (pieces : list string) :
  join sep (piece :: next :: pieces)
  = (piece ++ sep ++ join sep (next :: pieces))%string.
Proof. reflexivity. Qed.

(** X16: splitting at the commas loses nothing: joining the pieces with
    commas gives the text back; there is one piece more than there are
    commas, so at least one, and no piece contains a comma. *)
Theorem split_join_round_trip (sep : ascii) (s : string) :
  join (String sep "") (split sep s) = s /\
  length (split sep s) = S (count_char sep s) /\
  Forall (fun piece => count_char sep piece = 0%nat) (split sep s).
Proof.
  induction s as [|c s (Hjoin & Hlen & Hfree)].
  - repeat split. repeat constructor.
  - cbn [split count_char]. destruct (Ascii.eqb c sep) eqn:Hc.
    + apply Ascii.eqb_eq in Hc. subst c. split; [|split].
      * destruct (split sep s) as [|piece pieces] eqn:Hs;
          [exfalso; exact (split_nonempty sep s Hs)|].
        rewrite join_cons_cons, Hjoin. reflexivity.
      * cbn [length]. rewrite Hlen. reflexivity.
      * constructor; [reflexivity | exact Hfree].
    + destruct (split sep s) as [|piece pieces] eqn:Hs;
        [exfalso; exact (split_nonempty sep s Hs)|].
      split; [|split].
      * rewrite join_cons_char, Hjoin. reflexivity.
      * cbn [length] in *. lia.
      * apply Forall_cons in Hfree as [Hpiece Hpieces].
        constructor; [|exact Hpieces].
        cbn [count_char]. rewrite Hc, Hpiece. reflexivity.
Qed.

(** X17: the counter of the web application tracks exactly the lowercased
    pieces of TARGET_WORDS: the default word of the constructor never
    replaces them, so an empty TARGET_WORDS makes the empty word the only
    target word; only an unset variable gives ["fuck"]. *)
Theorem app_tracks_the_pieces_of_TARGET_WORDS
    (env_channel env_words : option string) (now : Z) :
  target_words (counter (app_from_env env_channel env_words now))
  = map lower (split "," (default "fuck"%string env_words)) /\
  target_words (counter (app_from_env env_channel (Some ""%string) now))
  = [""%string] /\
  target_words (counter (app_from_env env_channel None now))
  = ["fuck"%string].
Proof.
  split; [|split; reflexivity].
  unfold app_from_env, TARGET_WORDS.
  cbn [app_init counter init target_words].
  destruct (split "," (default "fuck"%string env_words)) as [|p ps] eqn:Hs;
    [exfalso; exact (split_nonempty _ _ Hs) | reflexivity].
Qed.

(** ** What the web application publishes *)

Lemma count_of_consume (self : TwitchWordCounter)
    (units : list (list recognition)) (w : string) :
  count_of (consume self units) w
  = count_of self w
    + Z.of_nat (count_occ string_dec (target_words self) w)
      * total_matches w units.
Proof.
  unfold count_of. cbn [consume with_state state].
  apply counter_get_process_audio.
Qed.

Lemma published_invariant (channel : string) (words : list string) (now : Z)
    (evs : list activity) (w : string) :
  let a := fold_left act evs (app_init channel words now) in
  0 <= count_of (counter a) w /\
  (forall v, g_word_counts a !! w = Some v ->
             In w (target_words (counter a))
             /\ 0 <= v <= count_of (counter a) w).
Proof.
  cbn zeta. induction evs as [|e evs IH] using rev_ind.
  - cbn [fold_left app_init counter g_word_counts].
    split; [reflexivity|]. intros v Hv. rewrite lookup_empty in Hv.
    discriminate Hv.
  - rewrite fold_left_app. cbn [fold_left].
    set (a := fold_left act evs (app_init channel words now)) in *.
    destruct IH as [Hpos Hpub]. destruct e as [clips|t]; cbn [act].
    + cbn [app_consume counter g_word_counts].
      rewrite count_of_consume.
      pose proof (total_matches_nonneg w [clips]) as Hm.
      cbn [consume with_state target_words].
      split; [nia|]. intros v Hv. destruct (Hpub v Hv) as [Hin Hv'].
      split; [exact Hin | nia].
    + cbn [update_counts counter g_word_counts].
      split; [exact Hpos|]. intros v Hv. rewrite lookup_publish in Hv.
      destruct (decide (w ∈ target_words (counter a))) as [Hin|Hout].
      * injection Hv as <-. split; [apply list_elem_of_In, Hin | lia].
      * apply Hpub, Hv.
Qed.

(** X18: whatever the consumer and the refresh loop have done since the
    application started, the count that a request returns for a word is
    never negative and never above the count the counter holds for it, and
    only target words have an entry in the response. *)
Theorem published_counts_never_exceed_the_counter
    (channel : string) (words : list string) (now : Z)
    (evs : list activity) (w : string) :
  let a := fold_left act evs (app_init channel words now) in
  0 <= counter_get (r_counts (get_counts a)) w <= count_of (counter a) w /\
  (is_Some (r_counts (get_counts a) !! w) ->
   In w (target_words (counter a))).
Proof.
  cbn zeta. cbn [get_counts r_counts].
  destruct (published_invariant channel words now evs w) as [Hpos Hpub].
  cbn zeta in Hpos, Hpub.
  set (a := fold_left act evs (app_init channel words now)) in *.
  destruct (g_word_counts a !! w) as [v|] eqn:Hv.
  - assert (Hget : counter_get (g_word_counts a) w = v)
      by (unfold counter_get; rewrite Hv; reflexivity).
    destruct (Hpub v eq_refl) as [Hin Hrange]. rewrite Hget.
    split; [lia | intros _; exact Hin].
  - assert (Hget : counter_get (g_word_counts a) w = 0)
      by (unfold counter_get; rewrite Hv; reflexivity).
    rewrite Hget. split; [lia|]. intros [? Hsome]. discriminate Hsome.
Qed.

Lemma published_counts_never_exceed_the_counter_witness :
  let a :=
    fold_left act
      [Consume [Recognized "fuck"]; Refresh 0; Consume [Recognized "oh fuck"]]
      (app_init "asmongold" ["fuck"%string] 0) in
  0 <= counter_get (r_counts (get_counts a)) "fuck" <= count_of (counter a) "fuck"
  /\ In "fuck"%string (target_words (counter a)).
Proof.
  cbn zeta.
  destruct (published_counts_never_exceed_the_counter
              "asmongold" ["fuck"%string] 0
              [Consume [Recognized "fuck"]; Refresh 0;
               Consume [Recognized "oh fuck"]] "fuck") as [Hrange Hkey].
  split; [exact Hrange | apply Hkey].
  vm_compute. eexists. reflexivity.
Defined.

(** ** What the console shows *)

Lemma match_words_transcribed (targets ws : list string) (text t : string) :
  forall st,
    In (OutTranscribed t) (printed (match_words targets ws text st)) ->
    In (OutTranscribed t) (printed st)
    \/ (t = text /\ exists w, In w ws /\ findall w text <> []).
Proof.
  unfold match_words.
  induction ws as [|w ws IH]; intros st Hin; [left; exact Hin|].
  cbn [fold_left] in Hin. apply IH in Hin as [Hin|(-> & w' & Hw' & Hm)].
  - unfold match_word in Hin.
    destruct (findall w text) as [|m ms] eqn:Hfind.
    + left. exact Hin.
    + replace (0 <? Z.of_nat (length (m :: ms))) with true in Hin
        by (symmetry; apply Z.ltb_lt; cbn [length]; lia).
      cbn [printed] in Hin. apply in_app_or in Hin as [Hin|Hin].
      * left. exact Hin.
      * right. destruct Hin as [Hin|[Hin|[]]]; [discriminate Hin|].
        injection Hin as ->. split; [reflexivity|].
        exists w. split; [left; reflexivity|]. rewrite Hfind. discriminate.
  - right. split; [reflexivity|]. exists w'. split; [right; exact Hw'|exact Hm].
Qed.

Lemma process_chunk_transcribed (targets : list string) (st : tally)
    (r : recognition) (t : string) :
  In (OutTranscribed t) (printed (process_chunk targets st r)) ->
  In (OutTranscribed t) (printed st)
  \/ exists raw w,
       r = Recognized raw /\ t = lower raw
       /\ In w targets /\ findall w t <> [].
Proof.
  destruct r as [raw| |e]; cbn [process_chunk printed]; intros Hin.
  - apply match_words_transcribed in Hin as [Hin|(-> & w & Hw & Hm)].
    + left. exact Hin.
    + right. exists raw, w. repeat split; assumption.
  - left. exact Hin.
  - apply in_app_or in Hin as [Hin|[Hin|[]]];
      [left; exact Hin | discriminate Hin].
Qed.

Lemma process_unit_transcribed (targets : list string)
    (clips : list recognition) (t : string) :
  forall st,
    In (OutTranscribed t) (printed (process_unit targets st clips)) ->
    In (OutTranscribed t) (printed st)
    \/ exists raw w,
         In (Recognized raw) clips /\ t = lower raw
         /\ In w targets /\ findall w t <> [].
Proof.
  induction clips as [|r clips IH]; intros st Hin; [left; exact Hin|].
  rewrite process_unit_cons in Hin.
  apply IH in Hin as [Hin|(raw & w & Hraw & Ht & Hw & Hm)].
  - apply process_chunk_transcribed in Hin
      as [Hin|(raw & w & -> & Ht & Hw & Hm)].
    + left. exact Hin.
    + right. exists raw, w.
      repeat split; [left; reflexivity | exact Ht | exact Hw | exact Hm].
  - right. exists raw, w.
    repeat split; [right; exact Hraw | exact Ht | exact Hw | exact Hm].
Qed.

Lemma process_audio_transcribed (targets : list string)
    (units : list (list recognition)) (t : string) :
  forall st,
    In (OutTranscribed t) (printed (process_audio targets st units)) ->
    In (OutTranscribed t) (printed st)
    \/ exists raw w,
         In (Recognized raw) (concat units) /\ t = lower raw
         /\ In w targets /\ findall w t <> [].
Proof.
  induction units as [|u units IH]; intros st Hin; [left; exact Hin|].
  change (process_audio targets st (u :: units))
    with (process_audio targets (process_unit targets st u) units) in Hin.
  cbn [concat].
  apply IH in Hin as [Hin|(raw & w & Hraw & Ht & Hw & Hm)].
  - apply process_unit_transcribed in Hin
      as [Hin|(raw & w & Hraw & Ht & Hw & Hm)].
    + left. exact Hin.
    + right. exists raw, w.
      repeat split; [apply in_or_app; left; exact Hraw | exact Ht
                     | exact Hw | exact Hm].
  - right. exists raw, w.
    repeat split; [apply in_or_app; right; exact Hraw | exact Ht
                   | exact Hw | exact Hm].
Qed.

(** X19: the console of a fresh counter shows a transcript only if a target
    word was found in it, and shows it in lower case. *)
Theorem shown_transcripts_contain_a_target_word
    (targets : list string) (units : list (list recognition)) (t : string) :
  In (OutTranscribed t)
     (printed (process_audio targets (Tally ∅ []) units)) ->
  exists raw w,
    In (Recognized raw) (concat units) /\ t = lower raw
    /\ In w targets /\ findall w t <> [].
Proof.
  intros Hin. apply process_audio_transcribed in Hin as [[]|Hin]. exact Hin.
Qed.

Lemma shown_transcripts_contain_a_target_word_witness :
  exists raw w,
    In (Recognized raw) (concat [[Recognized "Oh FUCK"; UnknownValueError]])
    /\ "oh fuck"%string = lower raw
    /\ In w ["fuck"%string] /\ findall w "oh fuck" <> [].
Proof.
  apply (shown_transcripts_contain_a_target_word ["fuck"%string]
           [[Recognized "Oh FUCK"; UnknownValueError]] "oh fuck").
  vm_compute. right. left. reflexivity.
Defined.

Lemma error_details_match_words (targets ws : list string) (text : string) :
  forall st,
    error_details (printed (match_words targets ws text st))
    = error_details (printed st).
Proof.
  unfold match_words.
  induction ws as [|w ws IH]; intros st; [reflexivity|].
  cbn [fold_left]. rewrite IH. unfold match_word.
  destruct (0 <? _); [|reflexivity].
  cbn [printed]. unfold error_details. rewrite flat_map_app.
  cbn [flat_map display_counts]. rewrite app_nil_r. reflexivity.
Qed.

Lemma error_details_process_unit (targets : list string)
    (clips : list recognition) :
  forall st,
    error_details (printed (process_unit targets st clips))
    = error_details (printed st) ++ failed_details clips.
Proof.
  induction clips as [|r clips IH]; intros st.
  - cbn [process_unit fold_left failed_details flat_map].
    rewrite app_nil_r. reflexivity.
  - rewrite process_unit_cons, IH.
    destruct r as [raw| |e]; cbn [process_chunk failed_details flat_map].
    + rewrite error_details_match_words. reflexivity.
    + reflexivity.
    + cbn [printed]. unfold error_details at 1. rewrite flat_map_app.
      cbn [flat_map]. rewrite <- app_assoc. reflexivity.
Qed.

Lemma error_details_process_audio (targets : list string)
    (units : list (list recognition)) :
  forall st,
    error_details (printed (process_audio targets st units))
    = error_details (printed st) ++ failed_details (concat units).
Proof.
  induction units as [|u units IH]; intros st.
  - cbn [process_audio fold_left concat failed_details flat_map].
    rewrite app_nil_r. reflexivity.
  - change (process_audio targets st (u :: units))
      with (process_audio targets (process_unit targets st u) units).
    rewrite IH, error_details_process_unit. cbn [concat].
    unfold failed_details. rewrite flat_map_app, <- app_assoc. reflexivity.
Qed.

(** X20: every failure of the recognition service is printed exactly once,
    with its detail and in the order of the sub-clips, and nothing else is
    printed as a failure. *)
Theorem every_service_failure_is_printed_once
    (targets : list string) (units : list (list recognition)) :
  error_details (printed (process_audio targets (Tally ∅ []) units))
  = failed_details (concat units).
Proof. rewrite error_details_process_audio. reflexivity. Qed.

(** ** The files of the sub-clips *)

Lemma str_injective (a b : Z) : str a = str b -> a = b.
Proof.
  unfold str. intros Heq.
  apply (f_equal NilEmpty.int_of_string) in Heq.
  rewrite !NilEmpty.isi in Heq. injection Heq as Heq.
  apply DecimalZ.to_int_inj in Heq. exact Heq.
Qed.

Lemma append_cancel_l (a b c : string) :
  (a ++ b)%string = (a ++ c)%string -> b = c.
Proof.
  induction a as [|x a IH]; cbn [String.append]; [auto|].
  intros [= Heq]. apply IH, Heq.
Qed.

Lemma chars_append (a b : string) :
  chars (a ++ b)%string = chars a ++ chars b.
Proof.
  unfold chars. induction a as [|x a IH]; [reflexivity|].
  change (list_ascii_of_string (String x a ++ b)%string)
    with (x :: list_ascii_of_string (a ++ b)%string).
  rewrite IH. reflexivity.
Qed.

Lemma append_cancel_r (a b c : string) :
  (a ++ c)%string = (b ++ c)%string -> a = b.
Proof.
  intros Heq. apply (f_equal chars) in Heq.
  rewrite !chars_append in Heq. apply app_inv_tail in Heq.
  unfold chars in Heq.
  rewrite <- (string_of_list_ascii_of_string a),
          <- (string_of_list_ascii_of_string b), Heq.
  reflexivity.
Qed.

(** X21: the sub-clips of one recording are exported to pairwise different
    files: two sub-clips with different indices never share a file name. *)
Theorem chunk_files_do_not_collide (audio_file : string) (i j : nat) :
  i <> j -> chunk_filename audio_file i <> chunk_filename audio_file j.
Proof.
  unfold chunk_filename. intros Hne Heq. apply Hne.
  apply append_cancel_l, append_cancel_l, append_cancel_r in Heq.
  apply str_injective in Heq. lia.
Qed.

Lemma chunk_files_do_not_collide_witness :
  chunk_filename "/tmp/tmpab12.wav" 1 <> chunk_filename "/tmp/tmpab12.wav" 11.
Proof.
  apply (chunk_files_do_not_collide "/tmp/tmpab12.wav" 1 11). lia.
Defined.
